(** * diacea: spatial relationship resolvers of [diacea/experiments.py]

    A shallow embedding of the resolvers that turn a flat list of diagram
    primitives (rectangles, texts, arrows, given by absolute coordinates)
    into a relational model (parent of a rectangle, label of a rectangle,
    the two rectangles an arrow links).

    Numbers are modelled exactly, as rationals: the comparisons, sums,
    products and the halving [/ 2] of the source are the ones of [Q].
    Python's [ValueError] (raised by [min] and [max] on an empty sequence)
    is the constructor [ValueError] of [result]. *)

From Stdlib Require Import List String Bool Arith Lia.
From Stdlib Require Import QArith Lqa Permutation Sorted Relations.
Import ListNotations.

Open Scope Q_scope.

(** ** Numbers: boolean comparisons on rationals *)

Definition Qltb (a b : Q) : bool := negb (Qle_bool b a).

Infix "<?" := Qltb (at level 70, no associativity) : Q_scope.
Infix "<=?" := Qle_bool (at level 70, no associativity) : Q_scope.

(** ** Data model *)

(** The input dictionaries, by their ['type']. *)
Record rectangle : Type := mk_rectangle {
  r_id : string;
  r_x : Q;
  r_y : Q;
  r_width : Q;
  r_height : Q
}.

Record text : Type := mk_text {
  t_id : string;
  t_x : Q;
  t_y : Q;
  t_text : string
}.

Definition point : Type := (Q * Q)%type.

(** ['points'] of an arrow holds exactly two points. *)
Record arrow : Type := mk_arrow {
  a_id : string;
  a_points : point * point
}.

Inductive element : Type :=
| IRectangle (r : rectangle)
| IText (t : text)
| IArrow (a : arrow).

(** The output dictionaries.  A rectangle carries the key ['parent'] or
    not ([None]); [convert_to_relative] always writes the key. *)
Inductive relative : Type :=
| RelRectangle (id label : string) (parent : option string)
| RelArrow (id label from to : string).

Definition rel_id (o : relative) : string :=
  match o with
  | RelRectangle id _ _ => id
  | RelArrow id _ _ _ => id
  end.

Inductive result (A : Type) : Type :=
| Ok (a : A)
| ValueError.

Arguments Ok {A} a.
Arguments ValueError {A}.

Definition bind {A B : Type} (m : result A) (k : A -> result B) : result B :=
  match m with
  | Ok a => k a
  | ValueError => ValueError
  end.

Notation "x <- m ;; k" := (bind m (fun x => k))
  (at level 61, m at next level, right associativity).

(** A [for] loop whose body may raise: the first error ends it. *)
Fixpoint map_result {A B : Type} (f : A -> result B) (l : list A)
  : result (list B) :=
  match l with
  | [] => Ok []
  | a :: l' => b <- f a ;; bs <- map_result f l' ;; Ok (b :: bs)
  end.

(** The comprehensions [[item for item in data if item['type'] == ...]]. *)
Fixpoint rectangles_of (data : list element) : list rectangle :=
  match data with
  | [] => []
  | IRectangle r :: data' => r :: rectangles_of data'
  | _ :: data' => rectangles_of data'
  end.

Fixpoint texts_of (data : list element) : list text :=
  match data with
  | [] => []
  | IText t :: data' => t :: texts_of data'
  | _ :: data' => texts_of data'
  end.

Fixpoint arrows_of (data : list element) : list arrow :=
  match data with
  | [] => []
  | IArrow a :: data' => a :: arrows_of data'
  | _ :: data' => arrows_of data'
  end.

(** ** Python built-ins *)

(** [min(seq, key=key)]: the first element whose key is least; the running
    minimum is replaced only by a strictly smaller key. *)
Fixpoint min_from {A : Type} (key : A -> Q) (best : A) (l : list A) : A :=
  match l with
  | [] => best
  | a :: l' => min_from key (if key a <? key best then a else best) l'
  end.

Definition py_min {A : Type} (key : A -> Q) (l : list A) : result A :=
  match l with
  | [] => ValueError
  | a :: l' => Ok (min_from key a l')
  end.

(** [max(seq)] on numbers: replaced only by a strictly larger value. *)
Fixpoint max_from (best : Q) (l : list Q) : Q :=
  match l with
  | [] => best
  | a :: l' => max_from (if best <? a then a else best) l'
  end.

Definition py_max (l : list Q) : result Q :=
  match l with
  | [] => ValueError
  | a :: l' => Ok (max_from a l')
  end.

(** [list.sort(key=key, reverse=True)]: descending and stable (elements
    with equal keys keep their original order). *)
Fixpoint insert_desc {A : Type} (key : A -> Q) (a : A) (l : list A) : list A :=
  match l with
  | [] => [a]
  | b :: l' => if key a <? key b then b :: insert_desc key a l'
               else a :: b :: l'
  end.

Definition sort_desc {A : Type} (key : A -> Q) (l : list A) : list A :=
  fold_right (insert_desc key) [] l.

(** ** Shared *)

Definition is_rectangle_inside (outer inner : rectangle) : bool :=
  (r_x outer <? r_x inner)
  && (r_y outer <? r_y inner)
  && (r_x inner + r_width inner <? r_x outer + r_width outer)
  && (r_y inner + r_height inner <? r_y outer + r_height outer).

(** [_dist]: [sum] starts from 0 and adds the square for x, then for y. *)
Definition _dist (rect : rectangle) (arrow : point) : Q :=
  let dx := r_x rect + r_width rect / 2 - fst arrow in
  let dy := r_y rect + r_height rect / 2 - snd arrow in
  0 + dx ^ 2 + dy ^ 2.

Definition area (r : rectangle) : Q := r_width r * r_height r.

(** The test of the comprehension in [find_nearest_rectangle]: the bounds
    are closed. *)
Definition covers (p : point) (r : rectangle) : bool :=
  (r_x r <=? fst p) && (fst p <=? r_x r + r_width r)
  && (r_y r <=? snd p) && (snd p <=? r_y r + r_height r).

Definition find_nearest_rectangle (p : point) (rectangles : list rectangle)
  : result rectangle :=
  let candidates := filter (covers p) rectangles in
  match candidates with
  | [] => py_min (fun r => _dist r p) rectangles
  | _ => py_min area candidates
  end.

(** The label test written out in every approach:
    [rect.x < text.x < rect.x + rect.width], and the same for y. *)
Definition text_in_rectangle (rect : rectangle) (t : text) : bool :=
  (r_x rect <? t_x t) && (t_x t <? r_x rect + r_width rect)
  && (r_y rect <? t_y t) && (t_y t <? r_y rect + r_height rect).

(** ** Imperative approach *)

(** The inner loop over [absolute_data], with its [break]. *)
Fixpoint first_label (item : rectangle) (absolute_data : list element)
  : string :=
  match absolute_data with
  | [] => EmptyString
  | IText t :: rest =>
      if text_in_rectangle item t then t_text t else first_label item rest
  | _ :: rest => first_label item rest
  end.

Fixpoint convert_items (absolute_data items : list element)
  : result (list relative) :=
  match items with
  | [] => Ok []
  | IRectangle item :: rest =>
      relative_data <- convert_items absolute_data rest ;;
      Ok (RelRectangle (r_id item) (first_label item absolute_data)
            (Some EmptyString) :: relative_data)
  | IText _ :: rest => convert_items absolute_data rest
  | IArrow item :: rest =>
      let '(arrow_start, arrow_end) := a_points item in
      from_element <-
        py_min (fun r => _dist r arrow_start) (rectangles_of absolute_data) ;;
      to_element <-
        py_min (fun r => _dist r arrow_end) (rectangles_of absolute_data) ;;
      relative_data <- convert_items absolute_data rest ;;
      Ok (RelArrow (a_id item) EmptyString (r_id from_element)
            (r_id to_element) :: relative_data)
  end.

Definition convert_to_relative (absolute_data : list element)
  : result (list relative) :=
  convert_items absolute_data absolute_data.

(** ** Rules based approach *)

(** One turn of the loop over [potential_parent]. *)
Definition parent_step (rect : rectangle) (parent : option rectangle)
  (potential_parent : rectangle) : option rectangle :=
  if negb (String.eqb (r_id potential_parent) (r_id rect))
     && is_rectangle_inside potential_parent rect
     && match parent with
        | None => true
        | Some p => is_rectangle_inside p potential_parent
        end
  then Some potential_parent
  else parent.

Definition find_parent (rect : rectangle) (rectangles : list rectangle)
  : option rectangle :=
  fold_left (parent_step rect) rectangles None.

(** The loop over [texts], with its [break]. *)
Definition find_label (rect : rectangle) (texts : list text) : string :=
  match find (text_in_rectangle rect) texts with
  | Some t => t_text t
  | None => EmptyString
  end.

Definition rectangle_item (rectangles : list rectangle) (texts : list text)
  (rect : rectangle) : relative :=
  RelRectangle (r_id rect) (find_label rect texts)
    (option_map r_id (find_parent rect rectangles)).

Definition arrow_item (rectangles : list rectangle) (a : arrow)
  : result relative :=
  let '(start, end_) := a_points a in
  from_rect <- find_nearest_rectangle start rectangles ;;
  to_rect <- find_nearest_rectangle end_ rectangles ;;
  Ok (RelArrow (a_id a) EmptyString (r_id from_rect) (r_id to_rect)).

Definition rule_based_approach (data : list element) : result (list relative) :=
  let rectangles := sort_desc area (rectangles_of data) in
  let texts := texts_of data in
  let arrows := arrows_of data in
  let output := map (rectangle_item rectangles texts) rectangles in
  arrow_items <- map_result (arrow_item rectangles) arrows ;;
  Ok (output ++ arrow_items).

(** ** QuadTree solver *)

(** [class Rectangle]: a region of the index. *)
Record Rectangle : Type := mk_Rectangle {
  x : Q;
  y : Q;
  w : Q;
  h : Q
}.

(** The keys ['x'] and ['y'] of an item; arrows have none. *)
Definition anchor (item : element) : option point :=
  match item with
  | IRectangle r => Some (r_x r, r_y r)
  | IText t => Some (t_x t, t_y t)
  | IArrow _ => None
  end.

(** [Rectangle.contains]: half-open on both axes.  An item without ['x']
    is never passed in by [quadtree_approach]; it is contained nowhere. *)
Definition contains (self : Rectangle) (item : element) : bool :=
  match anchor item with
  | Some (px, py) =>
      (x self <=? px) && (px <? x self + w self)
      && (y self <=? py) && (py <? y self + h self)
  | None => false
  end.

Definition intersects (self other : Rectangle) : bool :=
  negb ((x self + w self <=? x other)
        || (x other + w other <=? x self)
        || (y self + h self <=? y other)
        || (y other + h other <=? y self)).

(** [class QuadTree]: [divided] is the constructor; the four children
    exist once the node is divided. *)
Inductive QuadTree : Type :=
| Undivided (boundary : Rectangle) (capacity : nat) (items : list element)
| Divided (boundary : Rectangle) (capacity : nat) (items : list element)
    (northeast northwest southeast southwest : QuadTree).

Definition QuadTree_init (boundary : Rectangle) (capacity : nat) : QuadTree :=
  Undivided boundary capacity [].

Definition boundary_of (self : QuadTree) : Rectangle :=
  match self with
  | Undivided b _ _ => b
  | Divided b _ _ _ _ _ _ => b
  end.

Definition capacity_of (self : QuadTree) : nat :=
  match self with
  | Undivided _ c _ => c
  | Divided _ c _ _ _ _ _ => c
  end.

Definition items_of (self : QuadTree) : list element :=
  match self with
  | Undivided _ _ i => i
  | Divided _ _ i _ _ _ _ => i
  end.

(** [QuadTree.subdivide]: the four fresh children, in the order
    northeast, northwest, southeast, southwest. *)
Definition subdivide (boundary : Rectangle) (capacity : nat)
  : QuadTree * QuadTree * QuadTree * QuadTree :=
  let x0 := x boundary in
  let y0 := y boundary in
  let w2 := w boundary / 2 in
  let h2 := h boundary / 2 in
  (QuadTree_init (mk_Rectangle (x0 + w2) y0 w2 h2) capacity,
   QuadTree_init (mk_Rectangle x0 y0 w2 h2) capacity,
   QuadTree_init (mk_Rectangle (x0 + w2) (y0 + h2) w2 h2) capacity,
   QuadTree_init (mk_Rectangle x0 (y0 + h2) w2 h2) capacity).

(** The chain [ne.insert(item) or nw.insert(item) or se.insert(item) or
    sw.insert(item)]: a child is tried only when those before it returned
    false; [ins] is the insertion into a child. *)
Definition insert_children (ins : QuadTree -> option (bool * QuadTree))
  (ne nw se sw : QuadTree)
  : option (bool * (QuadTree * QuadTree * QuadTree * QuadTree)) :=
  match ins ne with
  | None => None
  | Some (true, ne') => Some (true, (ne', nw, se, sw))
  | Some (false, ne') =>
      match ins nw with
      | None => None
      | Some (true, nw') => Some (true, (ne', nw', se, sw))
      | Some (false, nw') =>
          match ins se with
          | None => None
          | Some (true, se') => Some (true, (ne', nw', se', sw))
          | Some (false, se') =>
              match ins sw with
              | None => None
              | Some (b, sw') => Some (b, (ne', nw', se', sw'))
              end
          end
      end
  end.

(** [QuadTree.insert].  The recursion of the source is not structural (it
    descends into children it has just created), so it is bounded by
    [fuel]: [None] means the bound was reached.  The result is the boolean
    that is returned and the node after the call. *)
Fixpoint insert (fuel : nat) (self : QuadTree) (item : element)
  : option (bool * QuadTree) :=
  match fuel with
  | O => None
  | S fuel' =>
      let boundary := boundary_of self in
      let capacity := capacity_of self in
      let items := items_of self in
      if negb (contains boundary item) then Some (false, self)
      else if (List.length items <? capacity)%nat then
        Some (true,
              match self with
              | Undivided _ _ _ => Undivided boundary capacity (items ++ [item])
              | Divided _ _ _ ne nw se sw =>
                  Divided boundary capacity (items ++ [item]) ne nw se sw
              end)
      else
        let '(ne, nw, se, sw) :=
          match self with
          | Undivided _ _ _ => subdivide boundary capacity
          | Divided _ _ _ ne nw se sw => (ne, nw, se, sw)
          end in
        match insert_children (fun child => insert fuel' child item)
                ne nw se sw with
        | None => None
        | Some (b, (ne', nw', se', sw')) =>
            Some (b, Divided boundary capacity items ne' nw' se' sw')
        end
  end.

(** [QuadTree.query]. *)
Fixpoint query (self : QuadTree) (range : Rectangle) : list element :=
  if negb (intersects (boundary_of self) range) then []
  else
    match self with
    | Undivided _ _ items => filter (contains range) items
    | Divided _ _ items ne nw se sw =>
        filter (contains range) items
        ++ query ne range ++ query nw range
        ++ query se range ++ query sw range
    end.

(** The loop that fills the index; the value returned by [insert] is
    dropped, as in the source. *)
Fixpoint insert_all (fuel : nat) (qt : QuadTree) (data : list element)
  : option QuadTree :=
  match data with
  | [] => Some qt
  | item :: data' =>
      match anchor item with
      | Some _ =>
          match insert fuel qt item with
          | None => None
          | Some (_, qt') => insert_all fuel qt' data'
          end
      | None => insert_all fuel qt data'
      end
  end.

(** The generator expressions of the bounding box. *)
Fixpoint positions (data : list element) : list point :=
  match data with
  | [] => []
  | item :: data' =>
      match anchor item with
      | Some p => p :: positions data'
      | None => positions data'
      end
  end.

Fixpoint extents (data : list element) : list point :=
  match data with
  | [] => []
  | IRectangle r :: data' =>
      (r_x r + r_width r, r_y r + r_height r) :: extents data'
  | IText t :: data' => (t_x t + 0, t_y t + 0) :: extents data'
  | IArrow _ :: data' => extents data'
  end.

Definition bounding_box (data : list element) : result Rectangle :=
  min_x <- py_min (fun v => v) (map fst (positions data)) ;;
  min_y <- py_min (fun v => v) (map snd (positions data)) ;;
  max_x <- py_max (map fst (extents data)) ;;
  max_y <- py_max (map snd (extents data)) ;;
  Ok (mk_Rectangle min_x min_y (max_x - min_x) (max_y - min_y)).

(** [next((text['text'] for text in contained_items if ...), '')]. *)
Fixpoint next_text (contained_items : list element) : string :=
  match contained_items with
  | [] => EmptyString
  | IText t :: _ => t_text t
  | _ :: rest => next_text rest
  end.

Definition quadtree_item (qt : QuadTree) (rectangles : list rectangle)
  (rect : rectangle) : relative :=
  let range :=
    mk_Rectangle (r_x rect) (r_y rect) (r_width rect) (r_height rect) in
  let contained_items := query qt range in
  RelRectangle (r_id rect) (next_text contained_items)
    (option_map r_id (find_parent rect rectangles)).

(** [quadtree_approach]; [None] only when [fuel] is too small for one of
    the insertions. *)
Definition quadtree_approach (fuel : nat) (data : list element)
  : option (result (list relative)) :=
  match bounding_box data with
  | ValueError => Some ValueError
  | Ok boundary =>
      match insert_all fuel (QuadTree_init boundary 4) data with
      | None => None
      | Some qt =>
          let rectangles := sort_desc area (rectangles_of data) in
          let output := map (quadtree_item qt rectangles) rectangles in
          Some (arrow_items <-
                  map_result (arrow_item rectangles) (arrows_of data) ;;
                Ok (output ++ arrow_items))
      end
  end.

(** ** Vocabulary of the statements *)

(** A valid input: unique ids among the rectangles, positive sizes. *)
Definition unique_ids (data : list element) : Prop :=
  NoDup (map r_id (rectangles_of data)).

Definition positive_sizes (data : list element) : Prop :=
  forall r, In r (rectangles_of data) -> 0 < r_width r /\ 0 < r_height r.

(** [p] is a candidate parent of [c]: another rectangle of the input
    that strictly contains [c]. *)
Definition candidate (data : list element) (c p : rectangle) : Prop :=
  In p (rectangles_of data)
  /\ r_id p <> r_id c
  /\ is_rectangle_inside p c = true.

(** What the parent loop for [rect] tests of a potential parent before it
    looks at the running parent. *)
Definition eligible (rect p : rectangle) : Prop :=
  r_id p <> r_id rect /\ is_rectangle_inside p rect = true.

(** The candidates of [c] are nested in one another. *)
Definition nested_candidates (data : list element) (c : rectangle) : Prop :=
  forall p q, candidate data c p -> candidate data c q ->
    p = q \/ is_rectangle_inside p q = true \/ is_rectangle_inside q p = true.

(** The parent that [rule_based_approach] computes for [c]. *)
Definition assigned_parent (data : list element) (c : rectangle)
  : option rectangle :=
  find_parent c (sort_desc area (rectangles_of data)).

(** The label point lies on one of the four lines bounding [rect]. *)
Definition on_edge (rect : rectangle) (t : text) : Prop :=
  t_x t == r_x rect \/ t_x t == r_x rect + r_width rect
  \/ t_y t == r_y rect \/ t_y t == r_y rect + r_height rect.


(** What [find_nearest_rectangle] settles on for the point [p]. *)
Definition resolves_to (rectangles : list rectangle) (p : point)
  (r : rectangle) : Prop :=
  In r rectangles
  /\ ((covers p r = true
       /\ forall q, In q rectangles -> covers p q = true -> area r <= area q)
      \/ ((forall q, In q rectangles -> covers p q = false)
          /\ forall q, In q rectangles -> _dist r p <= _dist q p)).

(** The parent relation on the rectangles of the input. *)
Definition assigned_rel (data : list element) (c p : rectangle) : Prop :=
  In c (rectangles_of data) /\ assigned_parent data c = Some p.

(** The parent relation that an output defines on ids. *)
Definition parent_rel (out : list relative) (child parent : string) : Prop :=
  exists label, In (RelRectangle child label (Some parent)) out.

(** ** Sample inputs *)

Definition outer_box : rectangle := mk_rectangle "outer" 0 0 100 100.
Definition inner_box : rectangle := mk_rectangle "inner" 40 40 30 30.

(** A box nested in another, one label in the inner box, one arrow. *)
Definition nested_input : list element :=
  [IRectangle inner_box; IRectangle outer_box;
   IText (mk_text "t" 45 45 "L");
   IArrow (mk_arrow "a" ((42, 42), (5, 5)))].

Definition nested_converted : list relative :=
  [RelRectangle "inner" "L" (Some ""%string);
   RelRectangle "outer" "L" (Some ""%string);
   RelArrow "a" "" "outer" "outer"].

Definition nested_resolved : list relative :=
  [RelRectangle "outer" "L" None;
   RelRectangle "inner" "L" (Some "outer"%string);
   RelArrow "a" "" "inner" "outer"].

(** Two overlapping boxes around a small one: ["B"] is the smaller of the
    two and is not inside ["A"]. *)
Definition box_A : rectangle := mk_rectangle "A" 0 0 10 10.
Definition box_B : rectangle := mk_rectangle "B" 1 1 4 20.
Definition box_c : rectangle := mk_rectangle "c" 2 2 1 1.

Definition overlapping_input : list element :=
  [IRectangle box_A; IRectangle box_B; IRectangle box_c].





(** A box with a label on its left edge. *)
Definition edge_box : rectangle := mk_rectangle "box" 0 0 10 10.
Definition edge_label : text := mk_text "t" 0 5 "E".

Definition edge_input : list element := [IRectangle edge_box; IText edge_label].

Definition edge_resolved : list relative := [RelRectangle "box" "" None].

(** ** Outputs compared as unordered collections *)

Definition same_up_to_order {B : Type} (r r' : result (list B)) : Prop :=
  match r, r' with
  | Ok o, Ok o' => Permutation o o'
  | ValueError, ValueError => True
  | _, _ => False
  end.

(** The choices of the resolver that do not hang on the order of the
    input: the labels strictly inside one rectangle carry one text, ... *)
Definition one_label_each (data : list element) : Prop :=
  forall c t u,
    In c (rectangles_of data) ->
    In t (texts_of data) -> In u (texts_of data) ->
    text_in_rectangle c t = true -> text_in_rectangle c u = true ->
    t_text t = t_text u.

(** ... the rectangles around any rectangle are nested in one another, ... *)
Definition nested_everywhere (data : list element) : Prop :=
  forall c, In c (rectangles_of data) -> nested_candidates data c.

(** ... and no endpoint of an arrow has two rectangles to settle on. *)
Definition unambiguous_endpoints (data : list element) : Prop :=
  forall a p r q,
    In a (arrows_of data) ->
    p = fst (a_points a) \/ p = snd (a_points a) ->
    resolves_to (rectangles_of data) p r ->
    resolves_to (rectangles_of data) p q ->
    r_id r = r_id q.

(** One box with two labels inside, in both orders. *)
Definition two_labels_input : list element :=
  [IRectangle edge_box; IText (mk_text "t1" 2 2 "A");
   IText (mk_text "t2" 3 3 "B")].

Definition two_labels_shuffled : list element :=
  [IRectangle edge_box; IText (mk_text "t2" 3 3 "B");
   IText (mk_text "t1" 2 2 "A")].

(** ** Vocabulary for the index *)

(** Every node of the tree has room for at least one item. *)
Fixpoint positive_capacity (t : QuadTree) : Prop :=
  match t with
  | Undivided _ c _ => (0 < c)%nat
  | Divided _ c _ ne nw se sw =>
      (0 < c)%nat /\ positive_capacity ne /\ positive_capacity nw
      /\ positive_capacity se /\ positive_capacity sw
  end.

(** The children of a divided node are its four quadrants. *)
Fixpoint quartered (t : QuadTree) : Prop :=
  match t with
  | Undivided _ _ _ => True
  | Divided b c _ ne nw se sw =>
      (boundary_of ne, boundary_of nw, boundary_of se, boundary_of sw)
      = (let '(ne0, nw0, se0, sw0) := subdivide b c in
         (boundary_of ne0, boundary_of nw0, boundary_of se0, boundary_of sw0))
      /\ quartered ne /\ quartered nw /\ quartered se /\ quartered sw
  end.

Fixpoint depth (t : QuadTree) : nat :=
  match t with
  | Undivided _ _ _ => 0
  | Divided _ _ _ ne nw se sw =>
      S (Nat.max (Nat.max (depth ne) (depth nw))
           (Nat.max (depth se) (depth sw)))
  end.

(** A label on the right edge of the bounding box: it is not in the
    half-open root region of the index. *)
Definition dropped_label : text := mk_text "t" 10 5 "E".

Definition dropped_input : list element :=
  [IRectangle edge_box; IText dropped_label].

(** The node is undivided and not yet full. *)
Definition has_room (t : QuadTree) : Prop :=
  match t with
  | Undivided _ c items => (List.length items < c)%nat
  | Divided _ _ _ _ _ _ _ => False
  end.

(** What an insertion keeps of a node. *)
Definition kept (q q' : QuadTree) : Prop :=
  positive_capacity q ->
  positive_capacity q'
  /\ boundary_of q' = boundary_of q
  /\ capacity_of q' = capacity_of q
  /\ (depth q' <= S (depth q))%nat
  /\ (has_room q -> depth q' = 0%nat)
  /\ (quartered q -> quartered q').

Definition dropped_boundary : Rectangle := mk_Rectangle 0 0 (10 - 0) (10 - 0).

Definition dropped_index : QuadTree :=
  Undivided dropped_boundary 4 [IRectangle edge_box].



(** ** Further vocabulary: the outputs *)

(** The ids of the elements that are put out, in input order: texts are
    consumed, rectangles and arrows stay. *)
Fixpoint output_ids (data : list element) : list string :=
  match data with
  | [] => []
  | IRectangle r :: data' => r_id r :: output_ids data'
  | IText _ :: data' => output_ids data'
  | IArrow a :: data' => a_id a :: output_ids data'
  end.

(** An output record with its label blanked. *)
Definition forget_label (o : relative) : relative :=
  match o with
  | RelRectangle id _ parent => RelRectangle id EmptyString parent
  | RelArrow id label from to => RelArrow id label from to
  end.

(** The region that [quadtree_approach] queries for [rect]. *)
Definition range_of (rect : rectangle) : Rectangle :=
  mk_Rectangle (r_x rect) (r_y rect) (r_width rect) (r_height rect).

(** ** Further vocabulary: the index *)

(** Everything stored in the tree: the items of the node, then those of
    the children in the order [query] visits them. *)
Fixpoint all_items (t : QuadTree) : list element :=
  match t with
  | Undivided _ _ items => items
  | Divided _ _ items ne nw se sw =>
      items ++ all_items ne ++ all_items nw ++ all_items se ++ all_items sw
  end.

(** Every item stored in or below a node lies in the region of the node. *)
Fixpoint bounded (t : QuadTree) : Prop :=
  (forall item, In item (all_items t) ->
     contains (boundary_of t) item = true)
  /\ match t with
     | Undivided _ _ _ => True
     | Divided _ _ _ ne nw se sw =>
         bounded ne /\ bounded nw /\ bounded se /\ bounded sw
     end.

(** No node holds more items than its capacity. *)
Fixpoint within_capacity (t : QuadTree) : Prop :=
  (List.length (items_of t) <= capacity_of t)%nat
  /\ match t with
     | Undivided _ _ _ => True
     | Divided _ _ _ ne nw se sw =>
         within_capacity ne /\ within_capacity nw
         /\ within_capacity se /\ within_capacity sw
     end.

(** ** CSP solver: the two constraints *)

(** The closure [text_in_rectangle(label, rect=rect)] of [csp_solver]. *)
Definition csp_text_in_rectangle (texts : list text) (rect : rectangle)
  (label : string) : bool :=
  existsb (fun t =>
             String.eqb label (t_text t)
             && ((r_x rect <? t_x t) && (t_x t <? r_x rect + r_width rect))
             && ((r_y rect <? t_y t) && (t_y t <? r_y rect + r_height rect)))
    texts
  || String.eqb label EmptyString.

(** The closure [valid_parent(parent, rect=rect)] of [csp_solver]; the
    value [None] of the domain is [None]. *)
Definition valid_parent (rectangles : list rectangle) (rect : rectangle)
  (parent : option string) : bool :=
  match parent with
  | None => true
  | Some id =>
      existsb (fun r => String.eqb (r_id r) id && is_rectangle_inside r rect)
        (filter (fun r => negb (String.eqb (r_id r) (r_id rect))) rectangles)
  end.

(** * Properties *)

(** ** Comparisons *)

Lemma Qltb_iff (a b : Q) : (a <? b) = true <-> a < b.
Proof.
  unfold Qltb. rewrite negb_true_iff. split; intro H.
  - apply Qnot_le_lt. intro Hle. apply Qle_bool_iff in Hle. congruence.
  - destruct (Qle_bool b a) eqn:E; [|reflexivity].
    apply Qle_bool_iff in E. exfalso. apply (Qlt_not_le _ _ H E).
Qed.

Lemma Qltb_false_iff (a b : Q) : (a <? b) = false <-> b <= a.
Proof.
  unfold Qltb. rewrite negb_false_iff. apply Qle_bool_iff.
Qed.

Lemma is_rectangle_inside_iff (outer inner : rectangle) :
  is_rectangle_inside outer inner = true <->
  r_x outer < r_x inner /\ r_y outer < r_y inner
  /\ r_x outer + r_width outer > r_x inner + r_width inner
  /\ r_y outer + r_height outer > r_y inner + r_height inner.
Proof.
  unfold is_rectangle_inside. rewrite !andb_true_iff, !Qltb_iff. tauto.
Qed.

Lemma text_in_rectangle_iff (rect : rectangle) (t : text) :
  text_in_rectangle rect t = true <->
  r_x rect < t_x t /\ t_x t < r_x rect + r_width rect
  /\ r_y rect < t_y t /\ t_y t < r_y rect + r_height rect.
Proof.
  unfold text_in_rectangle. rewrite !andb_true_iff, !Qltb_iff. tauto.
Qed.

Lemma on_edge_not_inside (rect : rectangle) (t : text) :
  on_edge rect t -> text_in_rectangle rect t = false.
Proof.
  intros He. destruct (text_in_rectangle rect t) eqn:E; [|reflexivity].
  apply text_in_rectangle_iff in E. unfold on_edge in He. lra.
Qed.

Lemma find_label_skip (rect : rectangle) (t : text) (before after : list text) :
  text_in_rectangle rect t = false ->
  find_label rect (before ++ t :: after) = find_label rect (before ++ after).
Proof.
  intros Ht. unfold find_label. induction before as [|b before IH]; simpl.
  - now rewrite Ht.
  - destruct (text_in_rectangle rect b); [reflexivity | exact IH].
Qed.

(** ** Loops that may raise *)

Lemma map_result_Forall2 {A B : Type} (f : A -> result B) (l : list A)
  (bs : list B) :
  map_result f l = Ok bs -> Forall2 (fun a b => f a = Ok b) l bs.
Proof.
  revert bs. induction l as [|a l IH]; simpl; intros bs H.
  - inversion H. constructor.
  - destruct (f a) as [b|] eqn:Ea; simpl in H; [|discriminate].
    destruct (map_result f l) as [bs'|]; simpl in H; [|discriminate].
    inversion H; subst. constructor; auto.
Qed.


Lemma map_result_ext_in {A B : Type} (f g : A -> result B) (l : list A) :
  (forall a, In a l -> f a = g a) -> map_result f l = map_result g l.
Proof.
  induction l as [|a l IH]; simpl; intros H; [reflexivity|].
  rewrite (H a (or_introl eq_refl)), IH; [reflexivity|].
  intros; apply H; now right.
Qed.

(** ** Sorting *)

Lemma insert_desc_perm {A : Type} (key : A -> Q) (a : A) (l : list A) :
  Permutation (insert_desc key a l) (a :: l).
Proof.
  induction l as [|b l IH]; simpl; [reflexivity|].
  destruct (key a <? key b); [|reflexivity].
  rewrite IH. apply perm_swap.
Qed.

Lemma sort_desc_perm {A : Type} (key : A -> Q) (l : list A) :
  Permutation (sort_desc key l) l.
Proof.
  induction l as [|a l IH]; simpl; [reflexivity|].
  rewrite insert_desc_perm. now constructor.
Qed.

Lemma sort_desc_In {A : Type} (key : A -> Q) (l : list A) (a : A) :
  In a (sort_desc key l) <-> In a l.
Proof.
  split; apply Permutation_in;
    [apply sort_desc_perm | symmetry; apply sort_desc_perm].
Qed.

(** The rectangles come out largest first. *)
Lemma insert_desc_sorted {A : Type} (key : A -> Q) (a : A) (l : list A) :
  StronglySorted (fun u v => key v <= key u) l ->
  StronglySorted (fun u v => key v <= key u) (insert_desc key a l).
Proof.
  induction 1 as [|b l Hs IH Hall]; simpl; [repeat constructor|].
  destruct (key a <? key b) eqn:E.
  - constructor; [exact IH|].
    apply Forall_forall. intros c Hc.
    apply (Permutation_in _ (insert_desc_perm key a l)) in Hc.
    destruct Hc as [<-|Hc].
    + apply Qltb_iff in E. now apply Qlt_le_weak.
    + revert c Hc. now apply Forall_forall.
  - apply Qltb_false_iff in E. constructor; [now constructor|].
    constructor; [exact E|].
    apply Forall_forall. intros c Hc.
    apply Qle_trans with (key b); [|exact E].
    revert c Hc. now apply Forall_forall.
Qed.

Lemma sort_desc_sorted {A : Type} (key : A -> Q) (l : list A) :
  StronglySorted (fun u v => key v <= key u) (sort_desc key l).
Proof.
  induction l as [|a l IH]; simpl; [constructor|].
  now apply insert_desc_sorted.
Qed.

(** ** The imperative approach *)

Lemma convert_items_rectangles (absolute_data items : list element)
  (out : list relative) :
  convert_items absolute_data items = Ok out ->
  (forall id label parent,
      In (RelRectangle id label parent) out -> parent = Some EmptyString)
  /\ (forall r, In r (rectangles_of items) ->
        In (RelRectangle (r_id r) (first_label r absolute_data)
              (Some EmptyString)) out).
Proof.
  revert out. induction items as [|[r|t|a] items IH]; simpl; intros out H.
  - inversion H; subst. split; intros; contradiction.
  - destruct (convert_items absolute_data items) as [rest|]; simpl in H;
      [|discriminate].
    inversion H; subst. destruct (IH _ eq_refl) as [IH1 IH2]. split.
    + intros id label parent [E|Hin]; [now inversion E | eauto].
    + intros r' [->|Hin]; [now left | right; auto].
  - auto.
  - destruct (a_points a) as [arrow_start arrow_end].
    destruct (py_min _ _); simpl in H; [|discriminate].
    destruct (py_min _ _); simpl in H; [|discriminate].
    destruct (convert_items absolute_data items) as [rest|]; simpl in H;
      [|discriminate].
    inversion H; subst. destruct (IH _ eq_refl) as [IH1 IH2]. split.
    + intros id label parent [E|Hin]; [discriminate | eauto].
    + intros r' Hin. right; auto.
Qed.

(** C10.  Whatever the geometry, every rectangle that [convert_to_relative]
    puts out has the empty string as parent, and every rectangle of the
    input is put out that way. *)
Theorem convert_to_relative_parent_empty (data : list element)
  (out : list relative) :
  convert_to_relative data = Ok out ->
  (forall id label parent,
      In (RelRectangle id label parent) out -> parent = Some EmptyString)
  /\ (forall r, In r (rectangles_of data) ->
        In (RelRectangle (r_id r) (first_label r data) (Some EmptyString))
          out).
Proof.
  apply convert_items_rectangles.
Qed.

Lemma convert_to_relative_parent_empty_witness :
  convert_to_relative nested_input = Ok nested_converted
  /\ In (RelRectangle "inner" (first_label inner_box nested_input)
           (Some EmptyString)) nested_converted.
Proof.
  split; [vm_compute; reflexivity|].
  refine (proj2 (convert_to_relative_parent_empty nested_input
                   nested_converted _) inner_box _).
  - vm_compute; reflexivity.
  - simpl; auto.
Defined.

(** C1.  The approaches do not agree.  On a box nested in another the
    imperative approach and the rules based approach put out different
    collections: the first gives the inner box the empty parent and
    resolves the arrow by distance alone, the second gives it the outer
    box as parent and resolves the arrow by containment.  On a box with a
    label on its left edge the quadtree approach, whose range query is
    closed on the low sides, attaches the label and the rules based
    approach does not. *)
Theorem approaches_disagree :
  convert_to_relative nested_input = Ok nested_converted
  /\ rule_based_approach nested_input = Ok nested_resolved
  /\ ~ Permutation nested_converted nested_resolved
  /\ rule_based_approach edge_input = Ok edge_resolved
  /\ quadtree_approach 2 edge_input = Some (Ok [RelRectangle "box" "E" None])
  /\ ~ Permutation edge_resolved [RelRectangle "box" "E" None].
Proof.
  split; [vm_compute; reflexivity|].
  split; [vm_compute; reflexivity|].
  split.
  { intros H.
    apply (Permutation_in (RelRectangle "inner" "L" (Some EmptyString))) in H.
    - simpl in H. intuition discriminate.
    - simpl; auto. }
  split; [vm_compute; reflexivity|].
  split; [vm_compute; reflexivity|].
  intros H. apply Permutation_length_1 in H. discriminate.
Qed.

(** ** Strict containment is a strict order *)

Lemma inside_irrefl (a : rectangle) : is_rectangle_inside a a = false.
Proof.
  destruct (is_rectangle_inside a a) eqn:E; [|reflexivity].
  apply is_rectangle_inside_iff in E. lra.
Qed.

Lemma inside_trans (a b c : rectangle) :
  is_rectangle_inside a b = true -> is_rectangle_inside b c = true ->
  is_rectangle_inside a c = true.
Proof.
  rewrite !is_rectangle_inside_iff. lra.
Qed.

Lemma inside_asym (a b : rectangle) :
  is_rectangle_inside a b = true -> is_rectangle_inside b a = false.
Proof.
  intros H. destruct (is_rectangle_inside b a) eqn:E; [|reflexivity].
  pose proof (inside_trans _ _ _ H E) as F.
  rewrite inside_irrefl in F. discriminate.
Qed.

Lemma inside_area (p q : rectangle) :
  0 < r_width q -> 0 < r_height q ->
  is_rectangle_inside p q = true -> area q < area p.
Proof.
  intros Hw Hh H. apply is_rectangle_inside_iff in H. unfold area.
  assert (Hw' : r_width q < r_width p) by lra.
  assert (Hh' : r_height q < r_height p) by lra.
  apply Qlt_trans with (r_width q * r_height p).
  - rewrite !(Qmult_comm (r_width q)).
    apply Qmult_lt_compat_r; assumption.
  - apply Qmult_lt_compat_r; lra.
Qed.

(** ** The parent loop *)

Section ParentLoop.

Variable rect : rectangle.

Lemma parent_step_cases (parent : option rectangle) (p : rectangle) :
  (parent_step rect parent p = Some p /\ eligible rect p
   /\ match parent with
      | None => True
      | Some q => is_rectangle_inside q p = true
      end)
  \/ (parent_step rect parent p = parent
      /\ (eligible rect p ->
          exists q, parent = Some q /\ is_rectangle_inside q p = false)).
Proof.
  unfold parent_step, eligible.
  destruct (String.eqb (r_id p) (r_id rect)) eqn:Eid; simpl.
  - right. split; [reflexivity|]. apply String.eqb_eq in Eid. tauto.
  - apply String.eqb_neq in Eid.
    destruct (is_rectangle_inside p rect) eqn:Ein; simpl.
    + destruct parent as [q|]; [|left; auto].
      destruct (is_rectangle_inside q p) eqn:Eq; [left; auto|].
      right. split; [reflexivity|]. intros _. now exists q.
    + right. split; [reflexivity|]. intros [_ ?]; discriminate.
Qed.

(** The running parent is eligible and comes from the list. *)
Lemma fold_parent_eligible (l : list rectangle) (acc : option rectangle)
  (p : rectangle) :
  fold_left (parent_step rect) l acc = Some p ->
  acc = Some p \/ (In p l /\ eligible rect p).
Proof.
  revert acc. induction l as [|a l IH]; simpl; intros acc H; [now left|].
  destruct (IH _ H) as [E|[Hin He]]; [|right; auto].
  destruct (parent_step_cases acc a) as [[Hs [He _]]|[Hs _]];
    rewrite Hs in E.
  - inversion E; subst. right; auto.
  - now left.
Qed.

(** No parent is left exactly when nothing in the list is eligible. *)
Lemma fold_parent_none (l : list rectangle) (acc : option rectangle) :
  fold_left (parent_step rect) l acc = None <->
  acc = None /\ forall p, In p l -> ~ eligible rect p.
Proof.
  revert acc. induction l as [|a l IH]; simpl; intros acc.
  - split; [intros ->; split; [reflexivity | tauto] | tauto].
  - rewrite IH.
    destruct (parent_step_cases acc a) as [[Hs [He _]]|[Hs Hn]]; rewrite Hs.
    + split; [intros [? _]; discriminate|].
      intros [_ H]. exfalso. apply (H a); auto.
    + split.
      * intros [-> H]. split; [reflexivity|].
        intros p [<-|Hin]; [|auto].
        intros He. destruct (Hn He) as (q & ? & _). discriminate.
      * intros [-> H]. split; [reflexivity|]. intros; apply H; auto.
Qed.

(** When the eligible rectangles are nested in one another, the running
    parent lies inside every other eligible rectangle met so far. *)
Lemma fold_parent_innermost (l seen : list rectangle)
  (acc : option rectangle) :
  (forall p q, In p (seen ++ l) -> In q (seen ++ l) ->
     eligible rect p -> eligible rect q ->
     p = q \/ is_rectangle_inside p q = true
     \/ is_rectangle_inside q p = true) ->
  match acc with
  | None => forall q, In q seen -> ~ eligible rect q
  | Some p =>
      In p seen /\ eligible rect p
      /\ forall q, In q seen -> eligible rect q ->
           q = p \/ is_rectangle_inside q p = true
  end ->
  forall p, fold_left (parent_step rect) l acc = Some p ->
    forall q, In q (seen ++ l) -> eligible rect q ->
      q = p \/ is_rectangle_inside q p = true.
Proof.
  revert seen acc. induction l as [|a l IH]; simpl; intros seen acc Hn Hacc.
  - rewrite app_nil_r. intros p ->. apply Hacc.
  - intros p Hp q Hq He.
    apply (IH (seen ++ [a]) (parent_step rect acc a)); auto.
    + intros p' q'. rewrite <- !app_assoc. simpl. apply Hn.
    + clear p Hp q Hq He.
      destruct (parent_step_cases acc a) as [[Hs [He Hq]]|[Hs Hne]];
        rewrite Hs.
      * split; [apply in_or_app; simpl; auto|].
        split; [exact He|].
        intros q Hq' Heq. apply in_app_or in Hq'.
        destruct Hq' as [Hq'|[<-|[]]]; [|now left].
        destruct acc as [p0|].
        -- destruct Hacc as (_ & _ & Hmin).
           destruct (Hmin q Hq' Heq) as [->|Hin]; [right; exact Hq|].
           right. eapply inside_trans; eauto.
        -- exfalso. apply (Hacc q Hq' Heq).
      * destruct acc as [p|].
        -- destruct Hacc as (Hin & Hel & Hmin).
           split; [apply in_or_app; auto|]. split; [exact Hel|].
           intros q Hq' Heq. apply in_app_or in Hq'.
           destruct Hq' as [Hq'|[<-|[]]]; [auto|].
           destruct (Hne Heq) as (p0 & E & Hni).
           inversion E; subst p0.
           assert (Hpa : In p (seen ++ a :: l)) by (apply in_or_app; auto).
           assert (Hqa : In a (seen ++ a :: l))
             by (apply in_or_app; simpl; auto).
           destruct (Hn p a Hpa Hqa Hel Heq) as [->|[Hc|Hc]]; auto.
           congruence.
        -- intros q Hq' Heq. apply in_app_or in Hq'.
           destruct Hq' as [Hq'|[<-|[]]]; [apply (Hacc q Hq' Heq)|].
           destruct (Hne Heq) as (p0 & E & _). discriminate.
    + rewrite <- app_assoc. exact Hq.
Qed.

End ParentLoop.

(** ** The rules based approach *)

Lemma rule_based_output (data : list element) (out : list relative) :
  rule_based_approach data = Ok out ->
  exists arrow_items,
    map_result (arrow_item (sort_desc area (rectangles_of data)))
      (arrows_of data) = Ok arrow_items
    /\ out = map (rectangle_item (sort_desc area (rectangles_of data))
                    (texts_of data))
               (sort_desc area (rectangles_of data)) ++ arrow_items.
Proof.
  unfold rule_based_approach. intros H.
  destruct (map_result _ _) as [arrow_items|]; simpl in H; [|discriminate].
  inversion H. now exists arrow_items.
Qed.

Lemma arrow_item_Ok (rectangles : list rectangle) (a : arrow) (o : relative) :
  arrow_item rectangles a = Ok o ->
  exists from_rect to_rect,
    find_nearest_rectangle (fst (a_points a)) rectangles = Ok from_rect
    /\ find_nearest_rectangle (snd (a_points a)) rectangles = Ok to_rect
    /\ o = RelArrow (a_id a) EmptyString (r_id from_rect) (r_id to_rect).
Proof.
  unfold arrow_item. destruct (a_points a) as [start end_]. simpl.
  destruct (find_nearest_rectangle start rectangles) as [f|]; simpl;
    [|discriminate].
  destruct (find_nearest_rectangle end_ rectangles) as [t|]; simpl;
    [|discriminate].
  intros H; inversion H. now exists f, t.
Qed.

Lemma arrow_items_not_rectangles (rectangles : list rectangle)
  (arrows : list arrow) (arrow_items : list relative) :
  map_result (arrow_item rectangles) arrows = Ok arrow_items ->
  forall id label parent, ~ In (RelRectangle id label parent) arrow_items.
Proof.
  intros H id label parent Hin. apply map_result_Forall2 in H.
  induction H as [|a o arrows items Ha _ IH]; [contradiction|].
  destruct Hin as [->|Hin]; [|auto].
  apply arrow_item_Ok in Ha. destruct Ha as (? & ? & _ & _ & ?). discriminate.
Qed.

(** The rectangles of the output are those of the input, each with the
    label and the parent found for it. *)
Lemma rule_based_rectangles (data : list element) (out : list relative) :
  rule_based_approach data = Ok out ->
  forall id label parent,
    In (RelRectangle id label parent) out <->
    exists c, In c (rectangles_of data)
      /\ id = r_id c
      /\ label = find_label c (texts_of data)
      /\ parent = option_map r_id (assigned_parent data c).
Proof.
  intros H id label parent.
  destruct (rule_based_output _ _ H) as (arrow_items & Ha & ->).
  rewrite in_app_iff, in_map_iff. split.
  - intros [(c & E & Hc)|Hin].
    + exists c. apply sort_desc_In in Hc. inversion E. auto.
    + exfalso. eapply arrow_items_not_rectangles; eauto.
  - intros (c & Hc & -> & -> & ->). left. exists c.
    split; [reflexivity | now apply sort_desc_In].
Qed.

Lemma assigned_parent_candidate (data : list element) (c p : rectangle) :
  assigned_parent data c = Some p -> candidate data c p.
Proof.
  unfold assigned_parent, find_parent. intros H.
  apply fold_parent_eligible in H. destruct H as [H|[Hin [Hid Hins]]];
    [discriminate|].
  apply sort_desc_In in Hin. now repeat split.
Qed.

Lemma assigned_parent_none (data : list element) (c : rectangle) :
  assigned_parent data c = None <-> forall p, ~ candidate data c p.
Proof.
  unfold assigned_parent, find_parent. rewrite fold_parent_none. split.
  - intros [_ H] p (Hin & He). apply (H p); [now apply sort_desc_In | exact He].
  - intros H. split; [reflexivity|]. intros p Hin He. apply (H p).
    apply sort_desc_In in Hin. split; assumption.
Qed.

Lemma assigned_parent_innermost (data : list element) (c p : rectangle) :
  nested_candidates data c ->
  assigned_parent data c = Some p ->
  forall q, candidate data c q -> q = p \/ is_rectangle_inside q p = true.
Proof.
  intros Hn Hp q (Hq & He).
  unfold assigned_parent, find_parent in Hp.
  apply (fold_parent_innermost c _ [] None) with (q := q) in Hp; auto.
  - simpl. intros p' q' Hp' Hq' Hep Heq. apply sort_desc_In in Hp', Hq'.
    apply Hn; split; assumption.
  - simpl. now apply sort_desc_In.
Qed.



Lemma nested_input_nested : nested_candidates nested_input inner_box.
Proof.
  intros p q (Hp & Hip & _) (Hq & Hiq & _). simpl in Hp, Hq.
  destruct Hp as [<-|[<-|[]]]; [exfalso; now apply Hip|].
  destruct Hq as [<-|[<-|[]]]; [exfalso; now apply Hiq|].
  now left.
Defined.



(** ** The parent relation of the output *)

Lemma NoDup_map_injective {A B : Type} (f : A -> B) (l : list A) (a b : A) :
  NoDup (map f l) -> In a l -> In b l -> f a = f b -> a = b.
Proof.
  induction l as [|c l IH]; simpl; intros Hnd Ha Hb E; [contradiction|].
  inversion Hnd as [|? ? Hnotin Hnd']; subst.
  destruct Ha as [->|Ha], Hb as [->|Hb]; auto.
  - exfalso. apply Hnotin. rewrite E. now apply in_map.
  - exfalso. apply Hnotin. rewrite <- E. now apply in_map.
Qed.

(** An edge of the parent relation joins two rectangles of the input, the
    second strictly containing the first. *)
Lemma parent_rel_inside (data : list element) (out : list relative)
  (a b : string) :
  rule_based_approach data = Ok out ->
  parent_rel out a b ->
  exists ca cb,
    In ca (rectangles_of data) /\ In cb (rectangles_of data)
    /\ r_id ca = a /\ r_id cb = b
    /\ assigned_parent data ca = Some cb
    /\ is_rectangle_inside cb ca = true.
Proof.
  intros Hout [label Hin].
  apply (rule_based_rectangles _ _ Hout) in Hin.
  destruct Hin as (ca & Hca & -> & _ & Hp).
  destruct (assigned_parent data ca) as [cb|] eqn:E; [|discriminate].
  inversion Hp; subst b.
  destruct (assigned_parent_candidate _ _ _ E) as (Hcb & _ & Hins).
  now exists ca, cb.
Qed.

Lemma parent_path_moves_left (data : list element) (out : list relative) :
  rule_based_approach data = Ok out ->
  unique_ids data ->
  forall a b, clos_trans string (parent_rel out) a b ->
    exists ca cb,
      In ca (rectangles_of data) /\ In cb (rectangles_of data)
      /\ r_id ca = a /\ r_id cb = b /\ r_x cb < r_x ca.
Proof.
  intros Hout Hu a b Hab. induction Hab as [a b Hab|a b c _ IH1 _ IH2].
  - destruct (parent_rel_inside _ _ _ _ Hout Hab)
      as (ca & cb & Ha & Hb & Ea & Eb & _ & Hins).
    exists ca, cb. apply is_rectangle_inside_iff in Hins. tauto.
  - destruct IH1 as (ca & cb & Ha & Hb & Ea & Eb & Hlt1).
    destruct IH2 as (cb' & cc & Hb' & Hc & Eb' & Ec & Hlt2).
    assert (cb = cb').
    { apply (NoDup_map_injective r_id (rectangles_of data)); auto.
      congruence. }
    subst cb'. exists ca, cc. repeat split; auto. lra.
Qed.

Lemma assigned_path_moves_left (data : list element) (a b : rectangle) :
  clos_trans rectangle (assigned_rel data) a b -> r_x b < r_x a.
Proof.
  induction 1 as [a b [_ Hab]|a b c _ IH1 _ IH2]; [|lra].
  apply assigned_parent_candidate in Hab. destruct Hab as (_ & _ & Hins).
  apply is_rectangle_inside_iff in Hins. tauto.
Qed.

(** C5.  The parent relation is a forest.  On the rectangles of any input,
    the parent that [rule_based_approach] assigns is unique and no
    rectangle is its own ancestor.  On the ids of the output, when the
    rectangles of the input have unique ids: an id has at most one parent
    and no id is its own ancestor. *)
Theorem parent_relation_is_forest :
  (forall data c, ~ clos_trans rectangle (assigned_rel data) c c)
  /\ (forall data c p p',
        assigned_rel data c p -> assigned_rel data c p' -> p = p')
  /\ (forall data out,
        unique_ids data ->
        rule_based_approach data = Ok out ->
        (forall a b b', parent_rel out a b -> parent_rel out a b' -> b = b')
        /\ (forall a, ~ clos_trans string (parent_rel out) a a)).
Proof.
  split; [|split].
  - intros data c H. apply assigned_path_moves_left in H. lra.
  - intros data c p p' [_ H] [_ H']. congruence.
  - intros data out Hu Hout. split.
    + intros a b b' Hb Hb'.
      destruct (parent_rel_inside _ _ _ _ Hout Hb)
        as (ca & cb & Ha & _ & Ea & Eb & Hp & _).
      destruct (parent_rel_inside _ _ _ _ Hout Hb')
        as (ca' & cb' & Ha' & _ & Ea' & Eb' & Hp' & _).
      assert (ca = ca').
      { apply (NoDup_map_injective r_id (rectangles_of data)); auto.
        congruence. }
      subst ca'. congruence.
    + intros a Haa.
      destruct (parent_path_moves_left _ _ Hout Hu _ _ Haa)
        as (ca & cb & Ha & Hb & Ea & Eb & Hlt).
      assert (ca = cb).
      { apply (NoDup_map_injective r_id (rectangles_of data)); auto.
        congruence. }
      subst cb. lra.
Qed.

Lemma nested_input_unique_ids : unique_ids nested_input.
Proof.
  unfold unique_ids. simpl.
  repeat constructor; simpl; intuition discriminate.
Defined.

Lemma parent_relation_is_forest_witness :
  unique_ids nested_input
  /\ rule_based_approach nested_input = Ok nested_resolved
  /\ (forall a b b', parent_rel nested_resolved a b ->
        parent_rel nested_resolved a b' -> b = b')
  /\ (forall a, ~ clos_trans string (parent_rel nested_resolved) a a).
Proof.
  split; [exact nested_input_unique_ids|].
  split; [vm_compute; reflexivity|].
  apply (proj2 (proj2 parent_relation_is_forest) nested_input nested_resolved).
  - exact nested_input_unique_ids.
  - vm_compute; reflexivity.
Defined.

(** ** [min] and [find_nearest_rectangle] *)

Section Min.

Context {A : Type} (key : A -> Q).

Lemma min_from_In (l : list A) (best : A) :
  In (min_from key best l) (best :: l).
Proof.
  revert best. induction l as [|a l IH]; simpl; intros best; [now left|].
  destruct (IH (if key a <? key best then a else best)) as [E|Hin];
    [|now right; right].
  rewrite <- E. destruct (key a <? key best); auto.
Qed.

Lemma min_from_le_best (l : list A) (best : A) :
  key (min_from key best l) <= key best.
Proof.
  revert best. induction l as [|a l IH]; simpl; intros best;
    [apply Qle_refl|].
  eapply Qle_trans; [apply IH|].
  destruct (key a <? key best) eqn:E; [|apply Qle_refl].
  apply Qltb_iff in E. now apply Qlt_le_weak.
Qed.

Lemma min_from_least (l : list A) (best a : A) :
  In a (best :: l) -> key (min_from key best l) <= key a.
Proof.
  revert best. induction l as [|b l IH]; simpl; intros best.
  - intros [->|[]]. apply Qle_refl.
  - intros [->|[->|Hin]].
    + eapply Qle_trans; [apply min_from_le_best|].
      destruct (key b <? key a) eqn:E; [|apply Qle_refl].
      apply Qltb_iff in E. now apply Qlt_le_weak.
    + eapply Qle_trans; [apply min_from_le_best|].
      destruct (key a <? key best) eqn:E; [apply Qle_refl|].
      now apply Qltb_false_iff in E.
    + apply IH. now right.
Qed.

Lemma py_min_spec (l : list A) (m : A) :
  py_min key l = Ok m ->
  In m l /\ forall a, In a l -> key m <= key a.
Proof.
  destruct l as [|b l]; simpl; [discriminate|].
  intros H; inversion H; subst m. split.
  - apply min_from_In.
  - apply min_from_least.
Qed.

Lemma py_min_total (l : list A) :
  l <> [] -> exists m, py_min key l = Ok m.
Proof.
  destruct l as [|b l]; [congruence|]. intros _. simpl. eauto.
Qed.

End Min.

Lemma filter_nil_iff {A : Type} (f : A -> bool) (l : list A) :
  filter f l = [] <-> forall a, In a l -> f a = false.
Proof.
  induction l as [|b l IH]; simpl; [tauto|].
  destruct (f b) eqn:E.
  - split; [discriminate|]. intros H. rewrite (H b) in E; [discriminate|auto].
  - rewrite IH. split.
    + intros H a [<-|Hin]; auto.
    + intros H a Hin. apply H. now right.
Qed.

Lemma find_nearest_rectangle_spec (p : point) (rectangles : list rectangle)
  (r : rectangle) :
  find_nearest_rectangle p rectangles = Ok r -> resolves_to rectangles p r.
Proof.
  unfold find_nearest_rectangle, resolves_to.
  destruct (filter (covers p) rectangles) as [|c cs] eqn:E.
  - intros H. apply py_min_spec in H. destruct H as [Hin Hmin].
    split; [exact Hin|]. right. split; [|exact Hmin].
    now apply filter_nil_iff.
  - rewrite <- E. intros H. apply py_min_spec in H. destruct H as [Hin Hmin].
    apply filter_In in Hin. destruct Hin as [Hin Hc].
    split; [exact Hin|]. left. split; [exact Hc|].
    intros q Hq Hcq. apply Hmin. apply filter_In. now split.
Qed.

Lemma find_nearest_rectangle_total (p : point) (rectangles : list rectangle) :
  rectangles <> [] -> exists r, find_nearest_rectangle p rectangles = Ok r.
Proof.
  intros Hne. unfold find_nearest_rectangle.
  destruct (filter (covers p) rectangles) as [|c cs] eqn:E.
  - now apply py_min_total.
  - rewrite <- E. apply py_min_total. rewrite E. discriminate.
Qed.

Lemma resolves_to_perm (l l' : list rectangle) (p : point) (r : rectangle) :
  (forall q, In q l <-> In q l') -> resolves_to l p r -> resolves_to l' p r.
Proof.
  intros Hiff (Hin & H). split; [now apply Hiff|].
  destruct H as [[Hc Hmin]|[Hnone Hmin]].
  - left. split; [exact Hc|]. intros q Hq. apply Hmin. now apply Hiff.
  - right. split; intros q Hq; [apply Hnone | apply Hmin]; now apply Hiff.
Qed.





(** ** Labels *)






Lemma first_label_skip (rect : rectangle) (t : text)
  (before after : list element) :
  text_in_rectangle rect t = false ->
  first_label rect (before ++ IText t :: after)
  = first_label rect (before ++ after).
Proof.
  intros Ht. induction before as [|[r|u|a] before IH]; simpl; auto.
  - now rewrite Ht.
  - destruct (text_in_rectangle rect u); [reflexivity | exact IH].
Qed.

(** C9.  [is_rectangle_inside outer inner] holds exactly when the four
    strict inequalities of the source hold; and a label whose point lies
    on an edge of a rectangle fails the strict label test, so it is
    passed over when the label of that rectangle is looked up: the label
    found, by the loop of the rules based approach and by the one of the
    imperative approach, and put out by [rule_based_approach], is the one
    found without it. *)
Theorem strict_containment_and_edge_labels :
  (forall outer inner,
      is_rectangle_inside outer inner = true <->
      r_x outer < r_x inner /\ r_y outer < r_y inner
      /\ r_x outer + r_width outer > r_x inner + r_width inner
      /\ r_y outer + r_height outer > r_y inner + r_height inner)
  /\ (forall rect t, on_edge rect t -> text_in_rectangle rect t = false)
  /\ (forall rect t before after, on_edge rect t ->
        find_label rect (before ++ t :: after)
        = find_label rect (before ++ after))
  /\ (forall rect t before after, on_edge rect t ->
        first_label rect (before ++ IText t :: after)
        = first_label rect (before ++ after))
  /\ (forall data out rect t before after,
        rule_based_approach data = Ok out ->
        In rect (rectangles_of data) ->
        texts_of data = before ++ t :: after ->
        on_edge rect t ->
        In (RelRectangle (r_id rect) (find_label rect (before ++ after))
              (option_map r_id (assigned_parent data rect))) out).
Proof.
  split; [exact is_rectangle_inside_iff|].
  split; [exact on_edge_not_inside|].
  split; [|split].
  - intros rect t before after He.
    apply find_label_skip, on_edge_not_inside, He.
  - intros rect t before after He.
    apply first_label_skip, on_edge_not_inside, He.
  - intros data out rect t before after Hout Hin Ht He.
    rewrite <- (find_label_skip rect t before after
                  (on_edge_not_inside rect t He)), <- Ht.
    apply (rule_based_rectangles _ _ Hout). now exists rect.
Qed.

Lemma strict_containment_and_edge_labels_witness :
  on_edge edge_box edge_label
  /\ text_in_rectangle edge_box edge_label = false
  /\ In (RelRectangle "box" "" None) edge_resolved.
Proof.
  assert (He : on_edge edge_box edge_label) by (left; reflexivity).
  split; [exact He|].
  destruct strict_containment_and_edge_labels as (_ & H2 & _ & _ & H4).
  split; [exact (H2 edge_box edge_label He)|].
  apply (H4 edge_input edge_resolved edge_box edge_label [] []).
  - vm_compute; reflexivity.
  - simpl; auto.
  - reflexivity.
  - exact He.
Defined.

(** ** Shuffling the input *)

Lemma rectangles_of_perm (data data' : list element) :
  Permutation data data' ->
  Permutation (rectangles_of data) (rectangles_of data').
Proof.
  induction 1 as [|e l l' _ IH|e e' l|l l' l'' _ IH1 _ IH2]; simpl.
  - constructor.
  - destruct e; auto.
  - destruct e, e'; try reflexivity. apply perm_swap.
  - etransitivity; eauto.
Qed.

Lemma texts_of_perm (data data' : list element) :
  Permutation data data' -> Permutation (texts_of data) (texts_of data').
Proof.
  induction 1 as [|e l l' _ IH|e e' l|l l' l'' _ IH1 _ IH2]; simpl.
  - constructor.
  - destruct e; auto.
  - destruct e, e'; try reflexivity. apply perm_swap.
  - etransitivity; eauto.
Qed.

Lemma arrows_of_perm (data data' : list element) :
  Permutation data data' -> Permutation (arrows_of data) (arrows_of data').
Proof.
  induction 1 as [|e l l' _ IH|e e' l|l l' l'' _ IH1 _ IH2]; simpl.
  - constructor.
  - destruct e; auto.
  - destruct e, e'; try reflexivity. apply perm_swap.
  - etransitivity; eauto.
Qed.

Lemma same_up_to_order_trans {B : Type} (r1 r2 r3 : result (list B)) :
  same_up_to_order r1 r2 -> same_up_to_order r2 r3 -> same_up_to_order r1 r3.
Proof.
  destruct r1, r2, r3; simpl; try tauto. apply Permutation_trans.
Qed.

Lemma map_result_perm {A B : Type} (f : A -> result B) (l l' : list A) :
  Permutation l l' -> same_up_to_order (map_result f l) (map_result f l').
Proof.
  induction 1 as [|a l l' _ IH|a b l|l l' l'' _ IH1 _ IH2]; simpl.
  - constructor.
  - destruct (f a); simpl; [|exact I].
    destruct (map_result f l), (map_result f l'); simpl in *; auto.
  - destruct (f a), (f b); simpl; try exact I;
      destruct (map_result f l); simpl; try exact I.
    apply perm_swap.
  - eapply same_up_to_order_trans; eauto.
Qed.

Lemma find_label_perm (c : rectangle) (texts texts' : list text) :
  Permutation texts texts' ->
  (forall t u, In t texts -> In u texts ->
     text_in_rectangle c t = true -> text_in_rectangle c u = true ->
     t_text t = t_text u) ->
  find_label c texts = find_label c texts'.
Proof.
  intros Hp Hone. unfold find_label.
  destruct (find (text_in_rectangle c) texts) as [t|] eqn:E;
    destruct (find (text_in_rectangle c) texts') as [u|] eqn:E'.
  - apply find_some in E, E'. destruct E as [Ht Hct], E' as [Hu Hcu].
    apply Hone; auto. eapply Permutation_in; [symmetry|]; eassumption.
  - apply find_some in E. destruct E as [Ht Hct].
    rewrite (find_none _ _ E' t) in Hct; [discriminate|].
    eapply Permutation_in; eassumption.
  - apply find_some in E'. destruct E' as [Hu Hcu].
    rewrite (find_none _ _ E u) in Hcu; [discriminate|].
    eapply Permutation_in; [symmetry|]; eassumption.
  - reflexivity.
Qed.

Lemma candidate_perm (data data' : list element) (c p : rectangle) :
  Permutation data data' -> candidate data c p -> candidate data' c p.
Proof.
  intros Hp (Hin & H). split; [|exact H].
  eapply Permutation_in; [apply rectangles_of_perm|]; eassumption.
Qed.

Lemma assigned_parent_perm (data data' : list element) (c : rectangle) :
  Permutation data data' ->
  nested_candidates data c ->
  assigned_parent data c = assigned_parent data' c.
Proof.
  intros Hp Hn.
  assert (Hp' : Permutation data' data) by now symmetry.
  assert (Hn' : nested_candidates data' c).
  { intros p q Hcp Hcq. apply Hn; eapply candidate_perm; eassumption. }
  destruct (assigned_parent data c) as [p|] eqn:E;
    destruct (assigned_parent data' c) as [p'|] eqn:E'.
  - pose proof (assigned_parent_candidate _ _ _ E) as Hc.
    pose proof (assigned_parent_candidate _ _ _ E') as Hc'.
    destruct (assigned_parent_innermost _ _ _ Hn E p'
                (candidate_perm _ _ _ _ Hp' Hc')) as [->|H1]; [reflexivity|].
    destruct (assigned_parent_innermost _ _ _ Hn' E' p
                (candidate_perm _ _ _ _ Hp Hc)) as [->|H2]; [reflexivity|].
    rewrite (inside_asym _ _ H1) in H2. discriminate.
  - exfalso. apply (proj1 (assigned_parent_none _ _) E' p).
    eapply candidate_perm; [eassumption|].
    now apply assigned_parent_candidate.
  - exfalso. apply (proj1 (assigned_parent_none _ _) E p').
    eapply candidate_perm; [eassumption|].
    now apply assigned_parent_candidate.
  - reflexivity.
Qed.

Lemma find_nearest_rectangle_perm (rectangles l l' : list rectangle)
  (p : point) :
  (forall q, In q l <-> In q rectangles) ->
  (forall q, In q l' <-> In q rectangles) ->
  (forall r q, resolves_to rectangles p r -> resolves_to rectangles p q ->
     r_id r = r_id q) ->
  match find_nearest_rectangle p l, find_nearest_rectangle p l' with
  | Ok r, Ok r' => r_id r = r_id r'
  | ValueError, ValueError => True
  | _, _ => False
  end.
Proof.
  intros Hl Hl' Hu.
  destruct l as [|a l0] eqn:El.
  - destruct l' as [|a' l0']; [exact I|].
    exfalso. apply (proj2 (Hl a')); apply Hl'; now left.
  - rewrite <- El in *. assert (Hne : l <> []) by (rewrite El; discriminate).
    assert (Hne' : l' <> []).
    { intros ->. apply (proj2 (Hl' a)). apply Hl. rewrite El. now left. }
    destruct (find_nearest_rectangle_total p l Hne) as [r Hr].
    destruct (find_nearest_rectangle_total p l' Hne') as [r' Hr'].
    rewrite Hr, Hr'. apply Hu.
    + eapply resolves_to_perm; [exact Hl|].
      now apply find_nearest_rectangle_spec.
    + eapply resolves_to_perm; [exact Hl'|].
      now apply find_nearest_rectangle_spec.
Qed.

Lemma arrow_item_perm (rectangles l l' : list rectangle) (a : arrow) :
  (forall q, In q l <-> In q rectangles) ->
  (forall q, In q l' <-> In q rectangles) ->
  (forall p r q, p = fst (a_points a) \/ p = snd (a_points a) ->
     resolves_to rectangles p r -> resolves_to rectangles p q ->
     r_id r = r_id q) ->
  arrow_item l a = arrow_item l' a.
Proof.
  intros Hl Hl' Hu. unfold arrow_item.
  destruct (a_points a) as [s e]. simpl in Hu.
  pose proof (find_nearest_rectangle_perm rectangles l l' s Hl Hl'
                (fun r q => Hu s r q (or_introl eq_refl))) as Hs.
  pose proof (find_nearest_rectangle_perm rectangles l l' e Hl Hl'
                (fun r q => Hu e r q (or_intror eq_refl))) as He.
  destruct (find_nearest_rectangle s l), (find_nearest_rectangle s l');
    simpl; try contradiction; [|reflexivity].
  destruct (find_nearest_rectangle e l), (find_nearest_rectangle e l');
    simpl; try contradiction; [|reflexivity].
  now rewrite Hs, He.
Qed.

(** C7.  Shuffling the input leaves the output of [rule_based_approach]
    the same up to order (or leaves it raising), provided the input leaves
    the resolver no choice that hangs on order: the labels strictly inside
    one rectangle carry one text, the rectangles strictly containing any
    rectangle are nested in one another, and no arrow endpoint has two
    rectangles with different ids to settle on. *)
Theorem shuffle_invariance (data data' : list element) :
  Permutation data data' ->
  one_label_each data ->
  nested_everywhere data ->
  unambiguous_endpoints data ->
  same_up_to_order (rule_based_approach data) (rule_based_approach data').
Proof.
  intros Hp Hone Hnest Hun. unfold rule_based_approach.
  set (rs := sort_desc area (rectangles_of data)).
  set (rs' := sort_desc area (rectangles_of data')).
  assert (Hrs : forall q, In q rs <-> In q (rectangles_of data))
    by (intros q; apply sort_desc_In).
  assert (Hrs' : forall q, In q rs' <-> In q (rectangles_of data)).
  { intros q. unfold rs'. rewrite sort_desc_In.
    split; apply Permutation_in;
      [symmetry|]; now apply rectangles_of_perm. }
  assert (Hperm : Permutation rs rs').
  { unfold rs, rs'. rewrite !sort_desc_perm. now apply rectangles_of_perm. }
  assert (Hitems : map (rectangle_item rs (texts_of data)) rs
                   = map (rectangle_item rs' (texts_of data')) rs).
  { apply map_ext_in. intros c Hc. apply Hrs in Hc. unfold rectangle_item.
    f_equal.
    - apply find_label_perm; [now apply texts_of_perm|].
      intros t u. now apply Hone.
    - f_equal. apply (assigned_parent_perm data data' c Hp (Hnest c Hc)). }
  assert (Harrows : map_result (arrow_item rs) (arrows_of data)
                    = map_result (arrow_item rs') (arrows_of data)).
  { apply map_result_ext_in. intros a Ha.
    apply (arrow_item_perm (rectangles_of data)); auto.
    intros p r q Hpa. now apply (Hun a). }
  rewrite Hitems, Harrows.
  pose proof (map_result_perm (arrow_item rs') _ _ (arrows_of_perm _ _ Hp))
    as Hm.
  destruct (map_result (arrow_item rs') (arrows_of data)) as [o|],
           (map_result (arrow_item rs') (arrows_of data')) as [o'|];
    simpl in *; try contradiction; [|exact I].
  apply Permutation_app; [|exact Hm]. now apply Permutation_map.
Qed.

(** C7, as worded, fails: with two labels strictly inside one box, the box
    takes the text of whichever label comes first in the input. *)
Lemma shuffle_changes_label :
  Permutation two_labels_input two_labels_shuffled
  /\ rule_based_approach two_labels_input = Ok [RelRectangle "box" "A" None]
  /\ rule_based_approach two_labels_shuffled
     = Ok [RelRectangle "box" "B" None]
  /\ ~ Permutation [RelRectangle "box" "A" None] [RelRectangle "box" "B" None].
Proof.
  split; [apply perm_skip, perm_swap|].
  split; [vm_compute; reflexivity|].
  split; [vm_compute; reflexivity|].
  intros H. apply Permutation_length_1 in H. discriminate.
Qed.

Lemma nested_input_one_label : one_label_each nested_input.
Proof.
  intros c t u _ Ht Hu _ _. simpl in Ht, Hu.
  destruct Ht as [<-|[]], Hu as [<-|[]]. reflexivity.
Defined.

Lemma nested_input_nested_everywhere : nested_everywhere nested_input.
Proof.
  intros c [<-|[<-|[]]]; [exact nested_input_nested|].
  intros p q (Hp & Hip & Hins) _. exfalso. simpl in Hp.
  destruct Hp as [<-|[<-|[]]]; [discriminate | now apply Hip].
Defined.

Lemma nested_input_unambiguous : unambiguous_endpoints nested_input.
Proof.
  intros a p r q [<-|[]] Hp (Hr & Hrmin) (Hq & Hqmin). simpl in Hp, Hr, Hq.
  destruct Hr as [<-|[<-|[]]], Hq as [<-|[<-|[]]]; try reflexivity;
    exfalso; destruct Hp as [->| ->].
  - destruct Hqmin as [[_ Hmin]|[Hnone _]].
    + specialize (Hmin inner_box (or_introl eq_refl) eq_refl).
      revert Hmin. apply Qlt_not_le. reflexivity.
    + specialize (Hnone inner_box (or_introl eq_refl)). discriminate.
  - destruct Hrmin as [[Hc _]|[Hnone _]]; [discriminate|].
    specialize (Hnone outer_box (or_intror (or_introl eq_refl))).
    discriminate.
  - destruct Hrmin as [[_ Hmin]|[Hnone _]].
    + specialize (Hmin inner_box (or_introl eq_refl) eq_refl).
      revert Hmin. apply Qlt_not_le. reflexivity.
    + specialize (Hnone inner_box (or_introl eq_refl)). discriminate.
  - destruct Hqmin as [[Hc _]|[Hnone _]]; [discriminate|].
    specialize (Hnone outer_box (or_intror (or_introl eq_refl))).
    discriminate.
Defined.

Lemma shuffle_invariance_witness :
  Permutation nested_input (rev nested_input)
  /\ same_up_to_order (rule_based_approach nested_input)
       (rule_based_approach (rev nested_input)).
Proof.
  split; [apply Permutation_rev|].
  apply (shuffle_invariance nested_input (rev nested_input)).
  - apply Permutation_rev.
  - exact nested_input_one_label.
  - exact nested_input_nested_everywhere.
  - exact nested_input_unambiguous.
Defined.

(** ** The index *)

Section InsertChildren.

Variable ins : QuadTree -> option (bool * QuadTree).
Variables ne nw se sw : QuadTree.



(** A relation kept by [ins] holds between each child and what the
    chain leaves in its place. *)
Lemma insert_children_rel (R : QuadTree -> QuadTree -> Prop)
  b ne' nw' se' sw' :
  (forall q, R q q) ->
  (forall q b' q', q = ne \/ q = nw \/ q = se \/ q = sw ->
     ins q = Some (b', q') -> R q q') ->
  insert_children ins ne nw se sw = Some (b, (ne', nw', se', sw')) ->
  R ne ne' /\ R nw nw' /\ R se se' /\ R sw sw'.
Proof.
  intros Hrefl H. unfold insert_children.
  destruct (ins ne) as [[[] ?]|] eqn:E1; try discriminate;
    [intros E; inversion E; subst; repeat split; eauto|].
  destruct (ins nw) as [[[] ?]|] eqn:E2; try discriminate;
    [intros E; inversion E; subst; repeat split; eauto|].
  destruct (ins se) as [[[] ?]|] eqn:E3; try discriminate;
    [intros E; inversion E; subst; repeat split; eauto 6|].
  destruct (ins sw) as [[? ?]|] eqn:E4; try discriminate.
  intros E; inversion E; subst; repeat split; eauto 6.
Qed.

(** The boolean of the chain is the disjunction of the booleans. *)
Lemma insert_children_bool (f : QuadTree -> bool) b r :
  (forall q b' q', q = ne \/ q = nw \/ q = se \/ q = sw ->
     ins q = Some (b', q') -> b' = f q) ->
  insert_children ins ne nw se sw = Some (b, r) ->
  b = f ne || f nw || f se || f sw.
Proof.
  intros H. unfold insert_children.
  destruct (ins ne) as [[b1 ?]|] eqn:E1; try discriminate.
  rewrite <- (H _ _ _ (or_introl eq_refl) E1).
  destruct b1; [intros E; inversion E; reflexivity|].
  destruct (ins nw) as [[b2 ?]|] eqn:E2; try discriminate.
  rewrite <- (H _ _ _ (or_intror (or_introl eq_refl)) E2).
  destruct b2; [intros E; inversion E; reflexivity|].
  destruct (ins se) as [[b3 ?]|] eqn:E3; try discriminate.
  rewrite <- (H _ _ _ (or_intror (or_intror (or_introl eq_refl))) E3).
  destruct b3; [intros E; inversion E; reflexivity|].
  destruct (ins sw) as [[b4 ?]|] eqn:E4; try discriminate.
  rewrite <- (H _ _ _ (or_intror (or_intror (or_intror eq_refl))) E4).
  intros E; inversion E; reflexivity.
Qed.

End InsertChildren.

Lemma half_half (v : Q) : v / 2 + v / 2 == v.
Proof. field. Qed.

(** The four quadrants cover the half-open region they divide. *)
Lemma contains_quadrants (b : Rectangle) (c : nat) (item : element) :
  contains b item = true ->
  let '(ne, nw, se, sw) := subdivide b c in
  contains (boundary_of ne) item || contains (boundary_of nw) item
  || contains (boundary_of se) item || contains (boundary_of sw) item = true.
Proof.
  unfold subdivide, contains. simpl.
  destruct (anchor item) as [[px py]|]; [|discriminate].
  rewrite !andb_true_iff, !Qle_bool_iff, !Qltb_iff.
  intros [[[Hx1 Hx2] Hy1] Hy2].
  pose proof (half_half (w b)) as Hw. pose proof (half_half (h b)) as Hh.
  rewrite !orb_true_iff, !andb_true_iff, !Qle_bool_iff, !Qltb_iff.
  generalize dependent (w b / 2). generalize dependent (h b / 2).
  intros h2 Hh w2 Hw.
  destruct (Qlt_le_dec px (x b + w2)), (Qlt_le_dec py (y b + h2)).
  - left; left; right. repeat split; lra.
  - right. repeat split; lra.
  - left; left; left. repeat split; lra.
  - left; right. repeat split; lra.
Qed.



Lemma kept_refl (q : QuadTree) : kept q q.
Proof.
  intros Hq. repeat split; auto.
  destruct q; simpl; [reflexivity | contradiction].
Qed.

Lemma subdivide_fresh (b : Rectangle) (c : nat) (q : QuadTree) :
  (0 < c)%nat ->
  let '(ne, nw, se, sw) := subdivide b c in
  q = ne \/ q = nw \/ q = se \/ q = sw ->
  positive_capacity q /\ has_room q /\ quartered q /\ depth q = 0%nat.
Proof.
  intros Hc. unfold subdivide, QuadTree_init.
  intros [ -> | [ -> | [ -> | -> ]]]; simpl; auto.
Qed.

(** What one insertion returns and what it leaves of the node. *)
Lemma insert_kept (n : nat) (t : QuadTree) (item : element) (b : bool)
  (t' : QuadTree) :
  insert n t item = Some (b, t') ->
  kept t t'
  /\ (positive_capacity t -> quartered t ->
      b = contains (boundary_of t) item).
Proof.
  revert t b t'. induction n as [|n IH]; intros t b t' H; [discriminate|].
  simpl in H.
  destruct (contains (boundary_of t) item) eqn:Ec; simpl in H.
  2:{ inversion H; subst. split; [apply kept_refl | reflexivity]. }
  destruct (List.length (items_of t) <? capacity_of t)%nat eqn:Er.
  { inversion H; subst. split; [|reflexivity].
    intros Hp. destruct t; simpl in *; repeat split; try tauto; lia. }
  apply Nat.ltb_ge in Er.
  destruct (match t with
            | Undivided _ _ _ => subdivide (boundary_of t) (capacity_of t)
            | Divided _ _ _ ne nw se sw => (ne, nw, se, sw)
            end) as [[[ne nw] se] sw] eqn:Ech.
  destruct (insert_children (fun child => insert n child item) ne nw se sw)
    as [[b' [[[ne' nw'] se'] sw']]|] eqn:E; [|discriminate].
  inversion H; subst b' t'. clear H.
  destruct (insert_children_rel _ _ _ _ _ kept _ _ _ _ _ kept_refl
              (fun q b' q' _ Hq => proj1 (IH q b' q' Hq)) E)
    as (Kne & Knw & Kse & Ksw).
  assert (Hch : positive_capacity t ->
                positive_capacity ne /\ positive_capacity nw
                /\ positive_capacity se /\ positive_capacity sw
                /\ (quartered t ->
                    quartered ne /\ quartered nw /\ quartered se
                    /\ quartered sw
                    /\ contains (boundary_of ne) item
                       || contains (boundary_of nw) item
                       || contains (boundary_of se) item
                       || contains (boundary_of sw) item = true)
                /\ (Nat.max (Nat.max (depth ne) (depth nw))
                      (Nat.max (depth se) (depth sw)) <= depth t)%nat
                /\ (quartered t ->
                    (boundary_of ne, boundary_of nw, boundary_of se,
                     boundary_of sw)
                    = (let '(ne0, nw0, se0, sw0) :=
                         subdivide (boundary_of t) (capacity_of t) in
                       (boundary_of ne0, boundary_of nw0, boundary_of se0,
                        boundary_of sw0)))).
  { intros Hp.
    pose proof (contains_quadrants (boundary_of t) (capacity_of t) item Ec)
      as Hq.
    destruct t as [b0 c0 i0|b0 c0 i0 ne0 nw0 se0 sw0]; simpl in *.
    - unfold subdivide, QuadTree_init in Ech. inversion Ech; subst.
      simpl. repeat split; auto; lia.
    - inversion Ech; subst. destruct Hp as (Hc & H1 & H2 & H3 & H4).
      do 4 (split; [assumption|]). split; [|split].
      + intros (Hb & G1 & G2 & G3 & G4). do 4 (split; [assumption|]).
        inversion Hb as [[E1 E2 E3 E4]]. rewrite E1, E2, E3, E4. exact Hq.
      + lia.
      + intros (Hb & _). exact Hb. }
  split.
  - intros Hp. destruct (Hch Hp) as (P1 & P2 & P3 & P4 & Hq & Hd & Hb).
    destruct (Kne P1) as (Q1 & B1 & _ & D1 & Z1 & W1).
    destruct (Knw P2) as (Q2 & B2 & _ & D2 & Z2 & W2).
    destruct (Kse P3) as (Q3 & B3 & _ & D3 & Z3 & W3).
    destruct (Ksw P4) as (Q4 & B4 & _ & D4 & Z4 & W4).
    assert (Hc : (0 < capacity_of t)%nat) by (destruct t; simpl in *; tauto).
    simpl. repeat split; auto.
    + destruct t as [b0 c0 i0|b0 c0 i0 ne0 nw0 se0 sw0]; simpl in *.
      * unfold subdivide, QuadTree_init in Ech. inversion Ech; subst.
        simpl in *. rewrite Z1, Z2, Z3, Z4; lia.
      * inversion Ech; subst. lia.
    + intros Hr. destruct t; simpl in *; [lia | contradiction].
    + rewrite B1, B2, B3, B4. now apply Hb.
    + apply W1; tauto.
    + apply W2; tauto.
    + apply W3; tauto.
    + apply W4; tauto.
  - intros Hp Hq. destruct (Hch Hp) as (P1 & P2 & P3 & P4 & Hq' & _).
    destruct (Hq' Hq) as (G1 & G2 & G3 & G4 & Hcover).
    rewrite <- Hcover.
    refine (insert_children_bool _ _ _ _ _
              (fun q => contains (boundary_of q) item) _ _ _ E).
    intros q b' q' Hq4 Hins.
    apply (IH _ _ _ Hins); destruct Hq4 as [ -> | [ -> | [ -> | -> ]]];
      assumption.
Qed.

Lemma insert_S (n : nat) (t : QuadTree) (item : element) :
  insert (S n) t item
  = if negb (contains (boundary_of t) item) then Some (false, t)
    else if (List.length (items_of t) <? capacity_of t)%nat then
      Some (true,
            match t with
            | Undivided _ _ _ =>
                Undivided (boundary_of t) (capacity_of t)
                  (items_of t ++ [item])
            | Divided _ _ _ ne nw se sw =>
                Divided (boundary_of t) (capacity_of t)
                  (items_of t ++ [item]) ne nw se sw
            end)
    else
      let '(ne, nw, se, sw) :=
        match t with
        | Undivided _ _ _ => subdivide (boundary_of t) (capacity_of t)
        | Divided _ _ _ ne nw se sw => (ne, nw, se, sw)
        end in
      match insert_children (fun child => insert n child item)
              ne nw se sw with
      | None => None
      | Some (b, (ne', nw', se', sw')) =>
          Some (b, Divided (boundary_of t) (capacity_of t) (items_of t)
                     ne' nw' se' sw')
      end.
Proof. reflexivity. Qed.






(** ** What [quadtree_approach] raises *)

Lemma py_min_error {A : Type} (key : A -> Q) (l : list A) :
  py_min key l = ValueError <-> l = [].
Proof.
  destruct l; simpl; split; intros H; try reflexivity; discriminate.
Qed.

Lemma py_max_error (l : list Q) : py_max l = ValueError <-> l = [].
Proof.
  destruct l; simpl; split; intros H; try reflexivity; discriminate.
Qed.








(** * Further properties *)

(** ** The imperative approach *)



Lemma convert_items_ids (absolute_data items : list element)
  (out : list relative) :
  convert_items absolute_data items = Ok out ->
  map rel_id out = output_ids items.
Proof.
  revert out. induction items as [|[r|t|a] items IH]; simpl; intros out H.
  - inversion H. reflexivity.
  - destruct (convert_items absolute_data items); simpl in H; [|discriminate].
    inversion H. simpl. f_equal. now apply IH.
  - now apply IH.
  - destruct (a_points a) as [s e].
    destruct (py_min _ _); simpl in H; [|discriminate].
    destruct (py_min _ _); simpl in H; [|discriminate].
    destruct (convert_items absolute_data items); simpl in H; [|discriminate].
    inversion H. simpl. f_equal. now apply IH.
Qed.

(** X2.  The output of [convert_to_relative] follows the input: one record
    per rectangle and per arrow, under the same id and in input order, and
    none for a text. *)
Theorem convert_to_relative_keeps_order (data : list element)
  (out : list relative) :
  convert_to_relative data = Ok out ->
  map rel_id out = output_ids data.
Proof.
  apply convert_items_ids.
Qed.

Lemma convert_to_relative_keeps_order_witness :
  map rel_id nested_converted = output_ids nested_input.
Proof.
  apply (convert_to_relative_keeps_order nested_input nested_converted).
  vm_compute; reflexivity.
Defined.

Lemma convert_items_arrows (absolute_data items : list element)
  (out : list relative) (a : arrow) :
  convert_items absolute_data items = Ok out ->
  In a (arrows_of items) ->
  exists from_element to_element,
    In (RelArrow (a_id a) EmptyString (r_id from_element) (r_id to_element))
      out
    /\ py_min (fun r => _dist r (fst (a_points a)))
         (rectangles_of absolute_data) = Ok from_element
    /\ py_min (fun r => _dist r (snd (a_points a)))
         (rectangles_of absolute_data) = Ok to_element.
Proof.
  revert out. induction items as [|[r|t|a0] items IH]; simpl; intros out H Hin.
  - contradiction.
  - destruct (convert_items absolute_data items); simpl in H; [|discriminate].
    inversion H; subst. destruct (IH _ eq_refl Hin) as (f & t & Ho & K).
    exists f, t. split; [now right | exact K].
  - now apply IH.
  - destruct (a_points a0) as [s e] eqn:Ep.
    destruct (py_min (fun r => _dist r s) (rectangles_of absolute_data))
      as [f0|] eqn:Ef; simpl in H; [|discriminate].
    destruct (py_min (fun r => _dist r e) (rectangles_of absolute_data))
      as [t0|] eqn:Et; simpl in H; [|discriminate].
    destruct (convert_items absolute_data items); simpl in H; [|discriminate].
    inversion H; subst. destruct Hin as [<-|Hin].
    + exists f0, t0. rewrite Ep. simpl. split; [now left | split; assumption].
    + destruct (IH _ eq_refl Hin) as (f & t & Ho & K).
      exists f, t. split; [now right | exact K].
Qed.

(** X3.  [convert_to_relative] resolves the two ends of an arrow by
    distance alone: each goes to a rectangle of the input whose centre is
    at the least squared distance among all rectangles, whether or not a
    rectangle holds the point. *)
Theorem convert_to_relative_arrows_by_distance (data : list element)
  (out : list relative) (a : arrow) :
  convert_to_relative data = Ok out ->
  In a (arrows_of data) ->
  exists from_element to_element,
    In (RelArrow (a_id a) EmptyString (r_id from_element) (r_id to_element))
      out
    /\ In from_element (rectangles_of data)
    /\ In to_element (rectangles_of data)
    /\ (forall q, In q (rectangles_of data) ->
          _dist from_element (fst (a_points a)) <= _dist q (fst (a_points a)))
    /\ (forall q, In q (rectangles_of data) ->
          _dist to_element (snd (a_points a)) <= _dist q (snd (a_points a))).
Proof.
  intros H Hin.
  destruct (convert_items_arrows _ _ _ _ H Hin) as (f & t & Ho & Hf & Ht).
  apply py_min_spec in Hf, Ht. exists f, t. tauto.
Qed.

Lemma convert_to_relative_arrows_by_distance_witness :
  exists from_element to_element,
    In (RelArrow "a" EmptyString (r_id from_element) (r_id to_element))
      nested_converted
    /\ In from_element (rectangles_of nested_input)
    /\ In to_element (rectangles_of nested_input)
    /\ (forall q, In q (rectangles_of nested_input) ->
          _dist from_element (42, 42) <= _dist q (42, 42))
    /\ (forall q, In q (rectangles_of nested_input) ->
          _dist to_element (5, 5) <= _dist q (5, 5)).
Proof.
  apply (convert_to_relative_arrows_by_distance nested_input nested_converted
           (mk_arrow "a" ((42, 42), (5, 5)))).
  - vm_compute; reflexivity.
  - simpl; auto.
Defined.




(** ** The rules based approach *)


Lemma arrow_items_ids (rectangles : list rectangle) (arrows : list arrow)
  (arrow_items : list relative) :
  map_result (arrow_item rectangles) arrows = Ok arrow_items ->
  map rel_id arrow_items = map a_id arrows.
Proof.
  intros H. apply map_result_Forall2 in H.
  induction H as [|a o arrows items Ha _ IH]; simpl; [reflexivity|].
  apply arrow_item_Ok in Ha. destruct Ha as (f & t & _ & _ & ->).
  simpl. now f_equal.
Qed.

(** X6.  The output of [rule_based_approach] lists the rectangles first,
    largest area first, under their ids, and then the arrows in input
    order; a text gets no record of its own. *)
Theorem rule_based_output_order (data : list element) (out : list relative) :
  rule_based_approach data = Ok out ->
  exists rectangles,
    Permutation rectangles (rectangles_of data)
    /\ StronglySorted (fun u v => area v <= area u) rectangles
    /\ map rel_id out = map r_id rectangles ++ map a_id (arrows_of data).
Proof.
  intros H. destruct (rule_based_output _ _ H) as (arrow_items & Ha & ->).
  exists (sort_desc area (rectangles_of data)).
  split; [apply sort_desc_perm|]. split; [apply sort_desc_sorted|].
  rewrite map_app, map_map, (arrow_items_ids _ _ _ Ha). reflexivity.
Qed.

Lemma rule_based_output_order_witness :
  exists rectangles,
    Permutation rectangles (rectangles_of nested_input)
    /\ StronglySorted (fun u v => area v <= area u) rectangles
    /\ map rel_id nested_resolved
       = map r_id rectangles ++ map a_id (arrows_of nested_input).
Proof.
  apply (rule_based_output_order nested_input nested_resolved).
  vm_compute; reflexivity.
Defined.

Lemma Forall2_In_r {A B : Type} (R : A -> B -> Prop) (l : list A)
  (l' : list B) (b : B) :
  Forall2 R l l' -> In b l' -> exists a, In a l /\ R a b.
Proof.
  induction 1 as [|a0 b0 l l' H0 _ IH]; simpl; [contradiction|].
  intros [<-|Hin].
  - exists a0. auto.
  - destruct (IH Hin) as (a & Ha & HR). exists a. auto.
Qed.

(** X7.  Every arrow record that [rule_based_approach] puts out stands for
    an arrow of the input, has the empty label, and names two rectangles
    of the input as its ends: never a text, an arrow or an unknown id. *)
Theorem rule_based_arrows_link_rectangles (data : list element)
  (out : list relative) (id label from to : string) :
  rule_based_approach data = Ok out ->
  In (RelArrow id label from to) out ->
  label = EmptyString
  /\ (exists a, In a (arrows_of data) /\ id = a_id a)
  /\ (exists f, In f (rectangles_of data) /\ from = r_id f)
  /\ (exists t, In t (rectangles_of data) /\ to = r_id t).
Proof.
  intros H Hin. destruct (rule_based_output _ _ H) as (arrow_items & Ha & ->).
  apply in_app_or in Hin. destruct Hin as [Hin|Hin].
  - apply in_map_iff in Hin. destruct Hin as (c & E & _). discriminate.
  - apply map_result_Forall2 in Ha.
    destruct (Forall2_In_r _ _ _ _ Ha Hin) as (a & Hain & Hitem).
    apply arrow_item_Ok in Hitem. destruct Hitem as (f & t & Hf & Ht & E).
    inversion E; subst.
    apply find_nearest_rectangle_spec in Hf, Ht.
    destruct Hf as [Hf _], Ht as [Ht _]. apply sort_desc_In in Hf, Ht.
    repeat split; eauto.
Qed.

Lemma rule_based_arrows_link_rectangles_witness :
  EmptyString = EmptyString
  /\ (exists a, In a (arrows_of nested_input) /\ "a"%string = a_id a)
  /\ (exists f, In f (rectangles_of nested_input) /\ "inner"%string = r_id f)
  /\ (exists t, In t (rectangles_of nested_input) /\ "outer"%string = r_id t).
Proof.
  apply (rule_based_arrows_link_rectangles nested_input nested_resolved).
  - vm_compute; reflexivity.
  - simpl; auto.
Defined.

(** X8.  Whatever the layout, the parent that [rule_based_approach]
    assigns to a rectangle is another rectangle of the input that strictly
    contains it, and, sizes being positive, one of strictly larger area. *)
Theorem assigned_parent_encloses_and_is_larger (data : list element)
  (c p : rectangle) :
  positive_sizes data ->
  In c (rectangles_of data) ->
  assigned_parent data c = Some p ->
  In p (rectangles_of data)
  /\ r_id p <> r_id c
  /\ is_rectangle_inside p c = true
  /\ area c < area p.
Proof.
  intros Hpos Hc Hp.
  destruct (assigned_parent_candidate _ _ _ Hp) as (Hin & Hid & Hins).
  repeat split; auto. apply inside_area; auto; apply (Hpos c Hc).
Qed.

Lemma assigned_parent_encloses_and_is_larger_witness :
  In box_A (rectangles_of overlapping_input)
  /\ r_id box_A <> r_id box_c
  /\ is_rectangle_inside box_A box_c = true
  /\ area box_c < area box_A.
Proof.
  apply (assigned_parent_encloses_and_is_larger overlapping_input).
  - intros r [<-|[<-|[<-|[]]]]; simpl; split; reflexivity.
  - simpl; auto.
  - vm_compute; reflexivity.
Defined.

(** ** The index: regions *)

Lemma Qle_bool_false_iff (a b : Q) : (a <=? b) = false <-> b < a.
Proof.
  rewrite <- Qltb_iff. unfold Qltb. now rewrite negb_true_iff.
Qed.

Lemma contains_both_intersects (a b : Rectangle) (item : element) :
  contains a item = true -> contains b item = true -> intersects a b = true.
Proof.
  unfold contains, intersects.
  destruct (anchor item) as [[px py]|]; [|discriminate].
  rewrite !andb_true_iff, !Qle_bool_iff, !Qltb_iff.
  intros [[[A1 A2] A3] A4] [[[B1 B2] B3] B4].
  rewrite negb_true_iff, !orb_false_iff, !Qle_bool_false_iff.
  repeat split; lra.
Qed.

Lemma intersects_common_point (a b : Rectangle) :
  0 < w a -> 0 < h a -> 0 < w b -> 0 < h b ->
  intersects a b = true ->
  exists item, contains a item = true /\ contains b item = true.
Proof.
  unfold intersects. intros Wa Ha Wb Hb.
  rewrite negb_true_iff, !orb_false_iff, !Qle_bool_false_iff.
  intros [[[I1 I2] I3] I4].
  exists (IText (mk_text EmptyString
                   (if x a <? x b then x b else x a)
                   (if y a <? y b then y b else y a) EmptyString)).
  unfold contains. simpl.
  rewrite !andb_true_iff, !Qle_bool_iff, !Qltb_iff.
  destruct (x a <? x b) eqn:Ex; destruct (y a <? y b) eqn:Ey;
    try apply Qltb_iff in Ex; try apply Qltb_false_iff in Ex;
    try apply Qltb_iff in Ey; try apply Qltb_false_iff in Ey;
    repeat split; lra.
Qed.

(** X9.  [Rectangle.intersects] does not depend on the order of its two
    arguments, and it never prunes a region that matters: two regions that
    both hold the anchor of some item intersect.  Conversely two regions
    of positive size that intersect share a point, each taken closed on
    its low sides and open on its high sides. *)
Theorem intersects_symmetric_and_sound :
  (forall a b, intersects a b = intersects b a)
  /\ (forall a b item,
        contains a item = true -> contains b item = true ->
        intersects a b = true)
  /\ (forall a b,
        0 < w a -> 0 < h a -> 0 < w b -> 0 < h b ->
        intersects a b = true ->
        exists item, contains a item = true /\ contains b item = true).
Proof.
  split; [|split; [exact contains_both_intersects
                  | exact intersects_common_point]].
  intros a b. unfold intersects. f_equal.
  destruct (x a + w a <=? x b), (x b + w b <=? x a),
           (y a + h a <=? y b), (y b + h b <=? y a); reflexivity.
Qed.

Lemma intersects_symmetric_and_sound_witness :
  intersects dropped_boundary (range_of edge_box) = true
  /\ exists item, contains dropped_boundary item = true
                  /\ contains (range_of edge_box) item = true.
Proof.
  destruct intersects_symmetric_and_sound as (_ & H2 & H3).
  assert (Hi : intersects dropped_boundary (range_of edge_box) = true).
  { apply (H2 dropped_boundary (range_of edge_box) (IRectangle edge_box));
      vm_compute; reflexivity. }
  split; [exact Hi|].
  apply H3; [reflexivity | reflexivity | reflexivity | reflexivity | exact Hi].
Defined.

(** ** The index: what an insertion stores *)

Lemma insert_children_cases (ins : QuadTree -> option (bool * QuadTree))
  (ne nw se sw : QuadTree) b ne' nw' se' sw' :
  insert_children ins ne nw se sw = Some (b, (ne', nw', se', sw')) ->
  (ins ne = Some (true, ne') /\ b = true
   /\ nw' = nw /\ se' = se /\ sw' = sw)
  \/ (ins ne = Some (false, ne') /\ ins nw = Some (true, nw') /\ b = true
      /\ se' = se /\ sw' = sw)
  \/ (ins ne = Some (false, ne') /\ ins nw = Some (false, nw')
      /\ ins se = Some (true, se') /\ b = true /\ sw' = sw)
  \/ (ins ne = Some (false, ne') /\ ins nw = Some (false, nw')
      /\ ins se = Some (false, se') /\ ins sw = Some (b, sw')).
Proof.
  unfold insert_children.
  destruct (ins ne) as [[[] ?]|]; try discriminate.
  { intros E; injection E as; intros; subst b ne' nw' se' sw'.
    left. repeat split; reflexivity. }
  destruct (ins nw) as [[[] ?]|]; try discriminate.
  { intros E; injection E as; intros; subst b ne' nw' se' sw'.
    right; left. repeat split; reflexivity. }
  destruct (ins se) as [[[] ?]|]; try discriminate.
  { intros E; injection E as; intros; subst b ne' nw' se' sw'.
    right; right; left. repeat split; reflexivity. }
  destruct (ins sw) as [[? ?]|]; try discriminate.
  intros E; injection E as; intros; subst b ne' nw' se' sw'.
  right; right; right. repeat split; reflexivity.
Qed.

Lemma children_items (t ne nw se sw : QuadTree) :
  match t with
  | Undivided _ _ _ => subdivide (boundary_of t) (capacity_of t)
  | Divided _ _ _ ne0 nw0 se0 sw0 => (ne0, nw0, se0, sw0)
  end = (ne, nw, se, sw) ->
  all_items t
  = items_of t ++ all_items ne ++ all_items nw ++ all_items se
    ++ all_items sw.
Proof.
  destruct t; simpl; intros E.
  - unfold subdivide, QuadTree_init in E. inversion E; subst. simpl.
    now rewrite app_nil_r.
  - inversion E; subst. reflexivity.
Qed.

Lemma insert_true_contains (n : nat) (t : QuadTree) (item : element)
  (t' : QuadTree) :
  insert n t item = Some (true, t') ->
  contains (boundary_of t) item = true.
Proof.
  destruct n as [|n]; [discriminate|]. rewrite insert_S.
  destruct (contains (boundary_of t) item); [reflexivity|]. discriminate.
Qed.

Lemma perm_mid1 {A : Type} (a : A) (l1 l2 : list A) :
  Permutation (l1 ++ a :: l2) (a :: l1 ++ l2).
Proof. symmetry. apply Permutation_middle. Qed.

Lemma perm_mid2 {A : Type} (a : A) (l1 l2 l3 : list A) :
  Permutation (l1 ++ l2 ++ a :: l3) (a :: l1 ++ l2 ++ l3).
Proof. rewrite !app_assoc. apply perm_mid1. Qed.

Lemma perm_mid3 {A : Type} (a : A) (l1 l2 l3 l4 : list A) :
  Permutation (l1 ++ l2 ++ l3 ++ a :: l4) (a :: l1 ++ l2 ++ l3 ++ l4).
Proof. rewrite !app_assoc. apply perm_mid1. Qed.

Lemma perm_mid4 {A : Type} (a : A) (l1 l2 l3 l4 l5 : list A) :
  Permutation (l1 ++ l2 ++ l3 ++ l4 ++ a :: l5)
    (a :: l1 ++ l2 ++ l3 ++ l4 ++ l5).
Proof. rewrite !app_assoc. apply perm_mid1. Qed.

Lemma insert_items (n : nat) (t : QuadTree) (item : element) (b : bool)
  (t' : QuadTree) :
  insert n t item = Some (b, t') ->
  Permutation (all_items t') (if b then item :: all_items t else all_items t).
Proof.
  revert t b t'. induction n as [|n IH]; intros t b t' H; [discriminate|].
  rewrite insert_S in H.
  destruct (negb (contains (boundary_of t) item)).
  { inversion H; subst. reflexivity. }
  destruct (List.length (items_of t) <? capacity_of t)%nat.
  { inversion H; subst. destruct t; simpl.
    - symmetry. apply Permutation_cons_append.
    - rewrite <- app_assoc. simpl. apply perm_mid1. }
  destruct (match t with
            | Undivided _ _ _ => subdivide (boundary_of t) (capacity_of t)
            | Divided _ _ _ ne nw se sw => (ne, nw, se, sw)
            end) as [[[ne nw] se] sw] eqn:Ech.
  apply children_items in Ech. rewrite Ech.
  destruct (insert_children (fun child => insert n child item) ne nw se sw)
    as [[b' [[[ne' nw'] se'] sw']]|] eqn:E; [|discriminate].
  inversion H; subst b' t'. clear H. simpl.
  destruct (insert_children_cases _ _ _ _ _ _ _ _ _ _ E)
    as [(H1 & Eb & E2 & E3 & E4)
       |[(H1 & H2 & Eb & E3 & E4)
        |[(H1 & H2 & H3 & Eb & E4)
         |(H1 & H2 & H3 & H4)]]]; subst.
  - rewrite (IH _ _ _ H1). simpl. apply perm_mid1.
  - rewrite (IH _ _ _ H1), (IH _ _ _ H2). simpl. apply perm_mid2.
  - rewrite (IH _ _ _ H1), (IH _ _ _ H2), (IH _ _ _ H3). simpl.
    apply perm_mid3.
  - rewrite (IH _ _ _ H1), (IH _ _ _ H2), (IH _ _ _ H3), (IH _ _ _ H4).
    destruct b; [|reflexivity]. apply perm_mid4.
Qed.

(** X10.  An insertion neither loses nor copies what the index holds: when
    it returns true the tree holds the old items and the new one, once
    more than before; when it returns false it holds exactly the old
    items.  It returns true only for an item whose anchor lies in the
    region of the node. *)
Theorem insert_conserves_items (fuel : nat) (t : QuadTree) (item : element)
  (b : bool) (t' : QuadTree) :
  insert fuel t item = Some (b, t') ->
  Permutation (all_items t') (if b then item :: all_items t else all_items t)
  /\ (b = true -> contains (boundary_of t) item = true).
Proof.
  intros H. split; [now apply (insert_items fuel)|].
  intros ->. now apply (insert_true_contains fuel t item t').
Qed.

Lemma insert_conserves_items_witness :
  Permutation (all_items dropped_index)
    (IRectangle edge_box :: all_items (QuadTree_init dropped_boundary 4))
  /\ (true = true ->
      contains (boundary_of (QuadTree_init dropped_boundary 4))
        (IRectangle edge_box) = true).
Proof.
  apply (insert_conserves_items 2 (QuadTree_init dropped_boundary 4)
           (IRectangle edge_box) true dropped_index).
  vm_compute; reflexivity.
Defined.

(** ** The index: invariants of a tree built by insertions *)

Lemma insert_boundary (n : nat) (t : QuadTree) (item : element) (b : bool)
  (t' : QuadTree) :
  insert n t item = Some (b, t') ->
  boundary_of t' = boundary_of t /\ capacity_of t' = capacity_of t.
Proof.
  destruct n as [|n]; [discriminate|]. rewrite insert_S.
  destruct (negb (contains (boundary_of t) item)).
  { intros H; inversion H; subst. auto. }
  destruct (List.length (items_of t) <? capacity_of t)%nat.
  { intros H; inversion H; subst. destruct t; auto. }
  destruct (match t with
            | Undivided _ _ _ => subdivide (boundary_of t) (capacity_of t)
            | Divided _ _ _ ne nw se sw => (ne, nw, se, sw)
            end) as [[[ne nw] se] sw].
  destruct (insert_children _ ne nw se sw)
    as [[b' [[[ne' nw'] se'] sw']]|]; [|discriminate].
  intros H; inversion H; subst. auto.
Qed.

Lemma children_of_node (P : QuadTree -> Prop) (t ne nw se sw : QuadTree) :
  match t with
  | Undivided _ _ _ => subdivide (boundary_of t) (capacity_of t)
  | Divided _ _ _ ne0 nw0 se0 sw0 => (ne0, nw0, se0, sw0)
  end = (ne, nw, se, sw) ->
  (forall b c, P (QuadTree_init b c)) ->
  match t with
  | Undivided _ _ _ => True
  | Divided _ _ _ ne0 nw0 se0 sw0 => P ne0 /\ P nw0 /\ P se0 /\ P sw0
  end ->
  P ne /\ P nw /\ P se /\ P sw.
Proof.
  destruct t; simpl; intros E Hinit H.
  - unfold subdivide in E. inversion E; subst. auto.
  - inversion E; subst. exact H.
Qed.

Lemma insert_bounded (n : nat) (t : QuadTree) (item : element) (b : bool)
  (t' : QuadTree) :
  insert n t item = Some (b, t') -> bounded t -> bounded t'.
Proof.
  revert t b t'. induction n as [|n IH]; intros t b t' H Hb; [discriminate|].
  pose proof (insert_items _ _ _ _ _ H) as Hitems.
  pose proof (insert_boundary _ _ _ _ _ H) as [Hbd _].
  assert (Htop : forall j, In j (all_items t') ->
                   contains (boundary_of t') j = true).
  { intros j Hj. rewrite Hbd.
    apply (Permutation_in _ Hitems) in Hj. destruct b.
    - destruct Hj as [<-|Hj].
      + now apply (insert_true_contains _ _ _ _ H).
      + destruct t; apply Hb; exact Hj.
    - destruct t; apply Hb; exact Hj. }
  rewrite insert_S in H.
  destruct (negb (contains (boundary_of t) item)).
  { inversion H; subst. exact Hb. }
  destruct (List.length (items_of t) <? capacity_of t)%nat.
  { inversion H; subst. destruct t; simpl in *; split; tauto. }
  destruct (match t with
            | Undivided _ _ _ => subdivide (boundary_of t) (capacity_of t)
            | Divided _ _ _ ne nw se sw => (ne, nw, se, sw)
            end) as [[[ne nw] se] sw] eqn:Ech.
  destruct (insert_children (fun child => insert n child item) ne nw se sw)
    as [[b' [[[ne' nw'] se'] sw']]|] eqn:E; [|discriminate].
  inversion H; subst b' t'. clear H.
  destruct (children_of_node bounded _ _ _ _ _ Ech) as (B1 & B2 & B3 & B4).
  { intros b0 c0. simpl. split; [intros j []|exact I]. }
  { destruct t; [exact I|]. apply Hb. }
  destruct (insert_children_rel _ _ _ _ _
              (fun q q' => bounded q -> bounded q') _ _ _ _ _
              (fun q Hq => Hq)
              (fun q b' q' _ Hq => IH q b' q' Hq) E)
    as (K1 & K2 & K3 & K4).
  split; [exact Htop|]. simpl. auto.
Qed.

Lemma insert_within_capacity (n : nat) (t : QuadTree) (item : element)
  (b : bool) (t' : QuadTree) :
  insert n t item = Some (b, t') -> within_capacity t -> within_capacity t'.
Proof.
  revert t b t'. induction n as [|n IH]; intros t b t' H Hc; [discriminate|].
  rewrite insert_S in H.
  destruct (negb (contains (boundary_of t) item)).
  { inversion H; subst. exact Hc. }
  destruct (List.length (items_of t) <? capacity_of t)%nat eqn:Er.
  { apply Nat.ltb_lt in Er. inversion H; subst.
    destruct t; simpl in *; rewrite length_app; simpl;
      (split; [lia | tauto]). }
  destruct (match t with
            | Undivided _ _ _ => subdivide (boundary_of t) (capacity_of t)
            | Divided _ _ _ ne nw se sw => (ne, nw, se, sw)
            end) as [[[ne nw] se] sw] eqn:Ech.
  destruct (insert_children (fun child => insert n child item) ne nw se sw)
    as [[b' [[[ne' nw'] se'] sw']]|] eqn:E; [|discriminate].
  inversion H; subst b' t'. clear H.
  destruct (children_of_node within_capacity _ _ _ _ _ Ech)
    as (B1 & B2 & B3 & B4).
  { intros b0 c0. simpl. split; [lia | exact I]. }
  { destruct t; [exact I|]. apply Hc. }
  destruct (insert_children_rel _ _ _ _ _
              (fun q q' => within_capacity q -> within_capacity q')
              _ _ _ _ _ (fun q Hq => Hq)
              (fun q b' q' _ Hq => IH q b' q' Hq) E)
    as (K1 & K2 & K3 & K4).
  split; [destruct t; apply Hc|]. simpl. auto.
Qed.

(** What the loop that fills the index keeps and stores. *)
Lemma insert_all_invariants (fuel : nat) (data : list element)
  (qt qt' : QuadTree) :
  insert_all fuel qt data = Some qt' ->
  boundary_of qt' = boundary_of qt
  /\ (bounded qt -> bounded qt')
  /\ (within_capacity qt -> within_capacity qt')
  /\ (positive_capacity qt ->
      (depth qt' <= depth qt + List.length data)%nat
      /\ (quartered qt ->
          Permutation (all_items qt')
            (all_items qt ++ filter (contains (boundary_of qt)) data))).
Proof.
  revert qt. induction data as [|item data IH]; simpl; intros qt H.
  - inversion H; subst. repeat split; auto; [lia|].
    intros _. now rewrite app_nil_r.
  - destruct (anchor item) as [p|] eqn:Ea.
    + destruct (insert fuel qt item) as [[b q]|] eqn:Ei; [|discriminate].
      destruct (IH _ H) as (Hbd & Hb & Hc & Hp).
      destruct (insert_boundary _ _ _ _ _ Ei) as [Hbd' _].
      destruct (insert_kept _ _ _ _ _ Ei) as [K Hbool].
      split; [congruence|].
      split; [intros Hq; apply Hb; now apply (insert_bounded _ _ _ _ _ Ei)|].
      split; [intros Hq; apply Hc;
              now apply (insert_within_capacity _ _ _ _ _ Ei)|].
      intros Hpos. destruct (K Hpos) as (Hpos' & _ & _ & Hd & _ & Hquart).
      destruct (Hp Hpos') as [Hd' Hperm]. split; [lia|].
      intros Hq. rewrite (Hperm (Hquart Hq)), Hbd'.
      rewrite (insert_items _ _ _ _ _ Ei), (Hbool Hpos Hq).
      destruct (contains (boundary_of qt) item); [|reflexivity].
      simpl. apply Permutation_middle.
    + destruct (IH _ H) as (Hbd & Hb & Hc & Hp).
      repeat split; auto.
      * destruct (Hp H0). lia.
      * intros Hq. destruct (Hp H0) as [_ Hperm].
        rewrite (Hperm Hq). unfold contains at 2. rewrite Ea. reflexivity.
Qed.

(** ** The index: queries *)

Lemma query_sound (t : QuadTree) (range : Rectangle) (item : element) :
  In item (query t range) ->
  In item (all_items t) /\ contains range item = true.
Proof.
  induction t as [b c items|b c items ne IHne nw IHnw se IHse sw IHsw];
    simpl; destruct (negb (intersects b range)); try contradiction.
  - intros H. now apply filter_In in H.
  - rewrite !in_app_iff, filter_In. intuition.
Qed.

Lemma bounded_top (t : QuadTree) (item : element) :
  bounded t -> In item (all_items t) ->
  contains (boundary_of t) item = true.
Proof.
  destruct t; intros [H _]; apply H.
Qed.

Lemma query_pruned (t : QuadTree) (range : Rectangle) :
  bounded t ->
  intersects (boundary_of t) range = false ->
  filter (contains range) (all_items t) = [].
Proof.
  intros Hbt Hi. pose proof (fun item => bounded_top t item Hbt) as Hb.
  apply filter_nil_iff. intros item Hin.
  destruct (contains range item) eqn:E; [|reflexivity].
  rewrite (contains_both_intersects _ _ _ (Hb item Hin) E) in Hi.
  discriminate.
Qed.

Lemma query_filter (t : QuadTree) (range : Rectangle) :
  bounded t -> query t range = filter (contains range) (all_items t).
Proof.
  induction t as [b c items|b c items ne IHne nw IHnw se IHse sw IHsw];
    intros Hb.
  - simpl. destruct (intersects b range) eqn:Ei; simpl; [reflexivity|].
    symmetry. now apply (query_pruned (Undivided b c items)).
  - pose proof (query_pruned _ range Hb) as Hpr.
    simpl in *. destruct (intersects b range) eqn:Ei; simpl.
    + destruct Hb as (_ & B1 & B2 & B3 & B4).
      rewrite !filter_app, IHne, IHnw, IHse, IHsw; auto.
    + symmetry. now apply Hpr.
Qed.

(** X11.  [QuadTree.query] returns nothing but stored items whose anchor
    lies in the range asked for (closed on its low sides, open on its
    high sides), whatever the shape of the tree. *)
Theorem query_returns_only_stored_items_in_range (t : QuadTree)
  (range : Rectangle) (item : element) :
  In item (query t range) ->
  In item (all_items t) /\ contains range item = true.
Proof.
  apply query_sound.
Qed.

Lemma query_returns_only_stored_items_in_range_witness :
  In (IRectangle edge_box) (all_items dropped_index)
  /\ contains (range_of edge_box) (IRectangle edge_box) = true.
Proof.
  apply (query_returns_only_stored_items_in_range dropped_index
           (range_of edge_box) (IRectangle edge_box)).
  vm_compute. auto.
Defined.

(** X12.  On a tree built by insertions from an empty root, a query misses
    nothing: it returns exactly the stored items whose anchor lies in the
    range, in the order in which the tree holds them; the pruning by
    [intersects] never costs an answer. *)
Theorem query_returns_all_stored_items_in_range (fuel : nat)
  (boundary : Rectangle) (capacity : nat) (data : list element)
  (qt : QuadTree) (range : Rectangle) :
  insert_all fuel (QuadTree_init boundary capacity) data = Some qt ->
  query qt range = filter (contains range) (all_items qt).
Proof.
  intros H. apply query_filter.
  apply (insert_all_invariants _ _ _ _ H).
  simpl. split; [intros j []|exact I].
Qed.

Lemma query_returns_all_stored_items_in_range_witness :
  query dropped_index (range_of edge_box)
  = filter (contains (range_of edge_box)) (all_items dropped_index).
Proof.
  apply (query_returns_all_stored_items_in_range 2 dropped_boundary 4
           dropped_input).
  vm_compute; reflexivity.
Defined.



(** X14.  In an index filled from an empty root of positive capacity no
    node holds more items than the capacity, every stored item lies in
    the region of each node above it, and the tree is no deeper than the
    number of elements handed in. *)
Theorem index_shape (fuel : nat) (boundary : Rectangle) (capacity : nat)
  (data : list element) (qt : QuadTree) :
  (0 < capacity)%nat ->
  insert_all fuel (QuadTree_init boundary capacity) data = Some qt ->
  within_capacity qt
  /\ bounded qt
  /\ (depth qt <= List.length data)%nat
  /\ boundary_of qt = boundary.
Proof.
  intros Hc H.
  destruct (insert_all_invariants _ _ _ _ H) as (Hbd & Hb & Hw & Hp).
  destruct (Hp Hc) as [Hd _]. split; [|split; [|split]].
  - apply Hw. simpl. split; [lia | exact I].
  - apply Hb. simpl. split; [intros j []|exact I].
  - exact Hd.
  - exact Hbd.
Qed.

Lemma index_shape_witness :
  within_capacity dropped_index
  /\ bounded dropped_index
  /\ (depth dropped_index <= List.length dropped_input)%nat
  /\ boundary_of dropped_index = dropped_boundary.
Proof.
  apply (index_shape 2 dropped_boundary 4 dropped_input dropped_index).
  - lia.
  - vm_compute; reflexivity.
Defined.

(** ** The bounding box *)













(** ** The quadtree approach *)

Lemma quadtree_output (fuel : nat) (data : list element)
  (out : list relative) :
  quadtree_approach fuel data = Some (Ok out) ->
  exists boundary qt arrow_items,
    bounding_box data = Ok boundary
    /\ insert_all fuel (QuadTree_init boundary 4) data = Some qt
    /\ map_result (arrow_item (sort_desc area (rectangles_of data)))
         (arrows_of data) = Ok arrow_items
    /\ out = map (quadtree_item qt (sort_desc area (rectangles_of data)))
               (sort_desc area (rectangles_of data)) ++ arrow_items.
Proof.
  unfold quadtree_approach.
  destruct (bounding_box data) as [boundary|]; [|discriminate].
  destruct (insert_all fuel _ data) as [qt|] eqn:E; [|discriminate].
  destruct (map_result _ (arrows_of data)) as [arrow_items|] eqn:Ea; simpl;
    [|discriminate].
  intros H; inversion H. exists boundary, qt, arrow_items. auto.
Qed.






(** X17.  Labels apart, [quadtree_approach] returns what
    [rule_based_approach] returns: the same records in the same order,
    with the same parents and the same arrow ends. *)
Theorem quadtree_matches_rule_based_but_labels (fuel : nat)
  (data : list element) (out : list relative) :
  quadtree_approach fuel data = Some (Ok out) ->
  exists out',
    rule_based_approach data = Ok out'
    /\ map forget_label out = map forget_label out'.
Proof.
  intros H.
  destruct (quadtree_output _ _ _ H) as (b & qt & items & _ & _ & Ha & ->).
  unfold rule_based_approach. rewrite Ha. simpl.
  eexists. split; [reflexivity|].
  rewrite !map_app, !map_map. f_equal.
Qed.

Lemma quadtree_matches_rule_based_but_labels_witness :
  exists out',
    rule_based_approach edge_input = Ok out'
    /\ map forget_label [RelRectangle "box" "E" None]
       = map forget_label out'.
Proof.
  apply (quadtree_matches_rule_based_but_labels 2 edge_input).
  vm_compute; reflexivity.
Defined.




(** ** CSP solver: the constraints *)

Lemma csp_text_in_rectangle_iff (texts : list text) (rect : rectangle)
  (label : string) :
  csp_text_in_rectangle texts rect label = true
  <-> (exists t, In t texts /\ label = t_text t
                 /\ text_in_rectangle rect t = true)
      \/ label = EmptyString.
Proof.
  unfold csp_text_in_rectangle, text_in_rectangle.
  rewrite orb_true_iff, existsb_exists, String.eqb_eq. split.
  - intros [(t & Hin & H)|H]; [left | now right].
    rewrite !andb_true_iff, String.eqb_eq in H. exists t.
    rewrite !andb_true_iff. tauto.
  - intros [(t & Hin & E & H)|H]; [left | now right].
    exists t. rewrite !andb_true_iff in H.
    rewrite !andb_true_iff, String.eqb_eq. tauto.
Qed.

Lemma valid_parent_iff (rectangles : list rectangle) (rect : rectangle)
  (id : string) :
  valid_parent rectangles rect (Some id) = true
  <-> exists r, In r rectangles /\ r_id r = id /\ eligible rect r.
Proof.
  unfold valid_parent, eligible. rewrite existsb_exists. split.
  - intros (r & Hin & H). apply filter_In in Hin. destruct Hin as [Hin Hne].
    apply andb_true_iff in H. destruct H as [E Hins].
    apply String.eqb_eq in E. apply negb_true_iff, String.eqb_neq in Hne.
    exists r. auto.
  - intros (r & Hin & E & Hne & Hins). exists r. split.
    + apply filter_In. split; [exact Hin|].
      now apply negb_true_iff, String.eqb_neq.
    + apply andb_true_iff. split; [now apply String.eqb_eq | exact Hins].
Qed.

(** X19.  The two constraints that [csp_solver] hands to the solver always
    have a solution: the empty label and no parent pass for every
    rectangle, and so do the label and the parent that the rules based
    loops pick.  A label that passes is empty or is the text of a label
    strictly inside the rectangle; a parent that passes is the id of
    another rectangle that strictly contains it. *)
Theorem csp_constraints_admit_rule_based_choice :
  forall rectangles texts rect,
    csp_text_in_rectangle texts rect EmptyString = true
    /\ valid_parent rectangles rect None = true
    /\ csp_text_in_rectangle texts rect (find_label rect texts) = true
    /\ valid_parent rectangles rect
         (option_map r_id (find_parent rect rectangles)) = true
    /\ (forall label, csp_text_in_rectangle texts rect label = true ->
          label = EmptyString
          \/ exists t, In t texts /\ label = t_text t
                       /\ text_in_rectangle rect t = true)
    /\ (forall id, valid_parent rectangles rect (Some id) = true ->
          exists r, In r rectangles /\ r_id r = id
                    /\ r_id r <> r_id rect
                    /\ is_rectangle_inside r rect = true).
Proof.
  intros rectangles texts rect.
  split; [apply csp_text_in_rectangle_iff; now right|].
  split; [reflexivity|]. split; [|split; [|split]].
  - apply csp_text_in_rectangle_iff. unfold find_label.
    destruct (find (text_in_rectangle rect) texts) as [t|] eqn:E;
      [|now right].
    apply find_some in E. left. exists t. tauto.
  - unfold find_parent.
    destruct (fold_left (parent_step rect) rectangles None) as [p|] eqn:E;
      [|reflexivity].
    apply fold_parent_eligible in E. destruct E as [E|[Hin He]];
      [discriminate|].
    simpl. apply valid_parent_iff. exists p. auto.
  - intros label H. apply csp_text_in_rectangle_iff in H. tauto.
  - intros id H. apply valid_parent_iff in H.
    destruct H as (r & Hin & E & Hne & Hins). exists r. auto.
Qed.

Lemma csp_constraints_admit_rule_based_choice_witness :
  exists r, In r [inner_box; outer_box] /\ r_id r = "outer"%string
            /\ r_id r <> r_id inner_box
            /\ is_rectangle_inside r inner_box = true.
Proof.
  apply (proj2 (proj2 (proj2 (proj2 (proj2
           (csp_constraints_admit_rule_based_choice
              [inner_box; outer_box] [] inner_box)))))).
  vm_compute; reflexivity.
Defined.
